(** * Verification of assets/js/interactive.js (Blocksphere training slides)

    Shallow embedding of the interactive slide widgets: the hash demo's
    [computeKeccakHash], [truncateHash], the scoreboard, the countdown
    timer with its interval handles, and the identifier-driven DOM
    operations (reveal answers, progress tracker, merkle steps, bug
    highlighting).  The page is a list of elements in document order; an
    element is identified by an object identity [eid]. *)

From stdpp Require Import base gmap strings list.
From Stdlib Require Import ZArith Lia Ascii.
Local Open Scope char_scope.

Open Scope string_scope.
Open Scope Z_scope.

(* ------------------------------------------------------------------ *)
(** ** JavaScript string helpers *)

(** [String.prototype.substring(a, b)]: both indices clamped to the
    string, swapped when [a > b]. *)
Definition js_substring (s : string) (a b : nat) : string :=
  let len := String.length s in
  let a' := Nat.min a len in
  let b' := Nat.min b len in
  String.substring (Nat.min a' b') (Nat.max a' b' - Nat.min a' b') s.

(** Decimal digits of a natural number. *)
Fixpoint N_digits (fuel : nat) (n : N) (acc : string) : string :=
  match fuel with
  | O => acc
  | S f =>
      let acc' := String (Ascii.ascii_of_N (48 + N.modulo n 10)) acc in
      if N.ltb n 10 then acc' else N_digits f (N.div n 10) acc'
  end.

Definition N_to_string (n : N) : string := N_digits (S (N.size_nat n)) n "".

(** [Number.prototype.toString()] on an integral number. *)
Definition Z_to_string (z : Z) : string :=
  if z <? 0 then String "-"%char (N_to_string (Z.to_N (- z))) else N_to_string (Z.to_N z).

Fixpoint zeros (n : nat) : string :=
  match n with O => "" | S k => String "0"%char (zeros k) end.

(** [String.prototype.padStart(w, '0')]. *)
Definition padStart (s : string) (w : nat) : string :=
  if Nat.ltb (String.length s) w then zeros (w - String.length s) +:+ s else s.

(* ------------------------------------------------------------------ *)
(** ** Hash demo *)

(** Outcome of a JavaScript call: a value or a thrown exception. *)
Inductive Completion (A : Type) : Type :=
| Normal (v : A)
| Throw (e : string).
Arguments Normal {A} v.
Arguments Throw {A} e.

(** The loaded [ethers] global: the two functions the demo calls, each of
    which may throw. *)
Record Ethers := mkEthers {
  toUtf8Bytes : string -> Completion (list Byte.byte);
  keccak256 : list Byte.byte -> Completion string
}.

(** [computeKeccakHash(input)]: the [console.error] lines it writes and the
    completion of the (awaited) call.  [None] is [typeof ethers ===
    'undefined']. *)
Definition computeKeccakHash (ethers : option Ethers) (input : string)
    : list string * Completion string :=
  match ethers with
  | None => (["ethers.js not loaded"], Normal "Error: ethers.js not loaded")
  | Some e =>
      match toUtf8Bytes e input with
      | Throw err => (["Hash computation error:" +:+ err], Normal "Error computing hash")
      | Normal bytes =>
          match keccak256 e bytes with
          | Throw err => (["Hash computation error:" +:+ err], Normal "Error computing hash")
          | Normal hash => ([], Normal hash)
          end
      end
  end.

(* ------------------------------------------------------------------ *)
(** ** Utility functions *)

(** [truncateHash(hash, startChars = 6, endChars = 4)]. *)
Definition truncateHash (hash : string) (startChars endChars : nat) : string :=
  if Nat.leb (String.length hash) (startChars + endChars + 3) then hash
  else js_substring hash 0 startChars +:+ "..."
       +:+ js_substring hash (String.length hash - endChars) (String.length hash).


(* ------------------------------------------------------------------ *)
(** ** The page and the process-wide state *)

(** A DOM element: object identity, [id] attribute, [classList],
    [textContent], [style.color], [style.animation], and the identities
    of its ancestors (for [container.querySelectorAll]). *)
Record Element := mkEl {
  eid : nat;
  el_id : option string;
  classes : list string;
  text : string;
  color : string;
  animation : string;
  ancestors : list nat
}.

(** A repeating callback installed by [setInterval] in [startTimer]: its
    handle, and the [display] and [onComplete] its closure captured
    ([cb] is [typeof onComplete === 'function']). *)
Record Interval := mkIv {
  iv_id : nat;
  iv_display : nat;
  iv_cb : bool
}.

(** Module-level state of the script plus the page and the browser's
    table of live intervals.  [timerInterval = None] is [null]; browser
    handles are positive, so [Some _] is truthy. *)
Record St := mkSt {
  dom : list Element;
  timerInterval : option nat;
  timerSeconds : Z;
  live : list Interval;
  nextHandle : nat;
  completions : nat;
  scores : gmap string Z;
  merkleAnimationStep : nat;
  consoleLog : list string;
  textTrace : list (nat * string);
  animations : list (nat * Z)
}.

Definition set_dom (d : list Element) (s : St) : St :=
  mkSt d (timerInterval s) (timerSeconds s) (live s) (nextHandle s) (completions s)
    (scores s) (merkleAnimationStep s) (consoleLog s) (textTrace s) (animations s).
Definition set_timerInterval (t : option nat) (s : St) : St :=
  mkSt (dom s) t (timerSeconds s) (live s) (nextHandle s) (completions s)
    (scores s) (merkleAnimationStep s) (consoleLog s) (textTrace s) (animations s).
Definition set_timerSeconds (z : Z) (s : St) : St :=
  mkSt (dom s) (timerInterval s) z (live s) (nextHandle s) (completions s)
    (scores s) (merkleAnimationStep s) (consoleLog s) (textTrace s) (animations s).
Definition set_live (l : list Interval) (s : St) : St :=
  mkSt (dom s) (timerInterval s) (timerSeconds s) l (nextHandle s) (completions s)
    (scores s) (merkleAnimationStep s) (consoleLog s) (textTrace s) (animations s).
Definition set_nextHandle (n : nat) (s : St) : St :=
  mkSt (dom s) (timerInterval s) (timerSeconds s) (live s) n (completions s)
    (scores s) (merkleAnimationStep s) (consoleLog s) (textTrace s) (animations s).
Definition set_completions (n : nat) (s : St) : St :=
  mkSt (dom s) (timerInterval s) (timerSeconds s) (live s) (nextHandle s) n
    (scores s) (merkleAnimationStep s) (consoleLog s) (textTrace s) (animations s).
Definition set_scores (m : gmap string Z) (s : St) : St :=
  mkSt (dom s) (timerInterval s) (timerSeconds s) (live s) (nextHandle s) (completions s)
    m (merkleAnimationStep s) (consoleLog s) (textTrace s) (animations s).
Definition set_merkleAnimationStep (n : nat) (s : St) : St :=
  mkSt (dom s) (timerInterval s) (timerSeconds s) (live s) (nextHandle s) (completions s)
    (scores s) n (consoleLog s) (textTrace s) (animations s).
Definition set_textTrace (t : list (nat * string)) (s : St) : St :=
  mkSt (dom s) (timerInterval s) (timerSeconds s) (live s) (nextHandle s) (completions s)
    (scores s) (merkleAnimationStep s) (consoleLog s) t (animations s).
Definition set_animations (a : list (nat * Z)) (s : St) : St :=
  mkSt (dom s) (timerInterval s) (timerSeconds s) (live s) (nextHandle s) (completions s)
    (scores s) (merkleAnimationStep s) (consoleLog s) (textTrace s) a.

(** *** DOM primitives *)

Definition el_set_classes (c : list string) (e : Element) : Element :=
  mkEl (eid e) (el_id e) c (text e) (color e) (animation e) (ancestors e).
Definition el_set_text (t : string) (e : Element) : Element :=
  mkEl (eid e) (el_id e) (classes e) t (color e) (animation e) (ancestors e).
Definition el_set_color (c : string) (e : Element) : Element :=
  mkEl (eid e) (el_id e) (classes e) (text e) c (animation e) (ancestors e).
Definition el_set_animation (a : string) (e : Element) : Element :=
  mkEl (eid e) (el_id e) (classes e) (text e) (color e) a (ancestors e).

(** [classList.contains], [classList.add], [classList.remove]. *)
Definition cl_contains (c : string) (cs : list string) : bool :=
  existsb (fun x => bool_decide (x = c)) cs.
Definition cl_add (c : string) (cs : list string) : list string :=
  if cl_contains c cs then cs else cs ++ [c].
Definition cl_remove (c : string) (cs : list string) : list string :=
  filter (fun x => x <> c) cs.

(** Apply [f] to the element object [i]. *)
Definition modify_el (i : nat) (f : Element -> Element) (d : list Element) : list Element :=
  map (fun e => if Nat.eqb (eid e) i then f e else e) d.

Definition find_el (i : nat) (d : list Element) : option Element :=
  find (fun e => Nat.eqb (eid e) i) d.

(** [document.getElementById(id)]: the first element in document order. *)
Definition getElementById (id : string) (d : list Element) : option Element :=
  find (fun e => bool_decide (el_id e = Some id)) d.

(** [document.querySelectorAll('.a.b')] and
    [container.querySelectorAll('.a')] in document order. *)
Definition querySelectorAll (cs : list string) (d : list Element) : list Element :=
  filter (fun e => forallb (fun c => cl_contains c (classes e)) cs = true) d.
Definition querySelectorAllIn (container : nat) (c : string) (d : list Element)
    : list Element :=
  filter (fun e => existsb (Nat.eqb container) (ancestors e) = true
                 /\ cl_contains c (classes e) = true) d.

Definition classAdd (c : string) (i : nat) (s : St) : St :=
  set_dom (modify_el i (fun e => el_set_classes (cl_add c (classes e)) e) (dom s)) s.
Definition classRemove (c : string) (i : nat) (s : St) : St :=
  set_dom (modify_el i (fun e => el_set_classes (cl_remove c (classes e)) e) (dom s)) s.

(** [el.textContent = t]; every write is also appended to [textTrace]. *)
Definition setText (i : nat) (t : string) (s : St) : St :=
  set_textTrace (textTrace s ++ [(i, t)])
    (set_dom (modify_el i (el_set_text t) (dom s)) s).
Definition setColor (i : nat) (c : string) (s : St) : St :=
  set_dom (modify_el i (el_set_color c) (dom s)) s.
Definition setAnimation (i : nat) (a : string) (s : St) : St :=
  set_dom (modify_el i (el_set_animation a) (dom s)) s.

(** [forEach] over a list of elements. *)
Definition forEach (f : nat -> St -> St) (els : list Element) (s : St) : St :=
  fold_left (fun acc e => f (eid e) acc) els s.

(* ------------------------------------------------------------------ *)
(** ** Challenge timer *)

(** [clearInterval(h)]: the browser drops the interval (if live). *)
Definition clearInterval (h : nat) (s : St) : St :=
  set_live (filter (fun iv => iv_id iv <> h) (live s)) s.

(** [`${Math.floor(t / 60)}:${(t % 60).toString().padStart(2, '0')}`];
    [%] truncates toward zero, like [Z.rem]. *)
Definition timerText (t : Z) : string :=
  Z_to_string (Z.div t 60) +:+ ":" +:+ padStart (Z_to_string (Z.rem t 60)) 2.

(** [updateTimerDisplay(display)]. *)
Definition updateTimerDisplay (display : nat) (s : St) : St :=
  setText display (timerText (timerSeconds s)) s.

(** [startTimer(displayId, seconds, onComplete)]; the new interval gets
    the next browser handle. *)
Definition startTimer (displayId : string) (seconds : Z) (cb : bool) (s : St) : St :=
  match getElementById displayId (dom s) with
  | None => s
  | Some d =>
      let s1 := match timerInterval s with
                | Some h => clearInterval h s
                | None => s
                end in
      let s2 := updateTimerDisplay (eid d) (set_timerSeconds seconds s1) in
      let h := nextHandle s2 in
      set_timerInterval (Some h)
        (set_nextHandle (S h) (set_live (live s2 ++ [mkIv h (eid d) cb]) s2))
  end.

(** Expiry branch of the interval callback ([timerSeconds <= 0]). *)
Definition expire (iv : Interval) (s : St) : St :=
  let d := iv_display iv in
  let s1 := match timerInterval s with
            | Some h => clearInterval h s
            | None => s
            end in
  let s2 := setAnimation d "pulse 0.5s infinite"
              (setText d "TIME'S UP!" (set_timerInterval None s1)) in
  if iv_cb iv then set_completions (S (completions s2)) s2 else s2.

(** One run of the closure passed to [setInterval] in [startTimer]. *)
Definition tick (iv : Interval) (s : St) : St :=
  let d := iv_display iv in
  let s1 := updateTimerDisplay d (set_timerSeconds (timerSeconds s - 1) s) in
  let s2 := if timerSeconds s1 <=? 0 then expire iv s1 else s1 in
  let s3 := if timerSeconds s2 =? 30 then setColor d "#f59e0b" s2 else s2 in
  if timerSeconds s3 <=? 10 then setColor d "#ef4444" s3 else s3.

(** The browser fires interval [h] if it is live. *)
Definition fire (h : nat) (s : St) : St :=
  match find (fun iv => Nat.eqb (iv_id iv) h) (live s) with
  | Some iv => tick iv s
  | None => s
  end.

(** [stopTimer()]. *)
Definition stopTimer (s : St) : St :=
  match timerInterval s with
  | Some h => set_timerInterval None (clearInterval h s)
  | None => s
  end.

(** [resetTimer(displayId, seconds)]. *)
Definition resetTimer (displayId : string) (seconds : Z) (s : St) : St :=
  let s1 := stopTimer s in
  match getElementById displayId (dom s1) with
  | Some d =>
      setAnimation (eid d) ""
        (setColor (eid d) "" (updateTimerDisplay (eid d) (set_timerSeconds seconds s1)))
  | None => s1
  end.

(* ------------------------------------------------------------------ *)
(** ** Scoreboard *)

Definition initialScores : gmap string Z := <["hacker" := 0]> (<["security" := 0]> ∅).

(** [updateScoreDisplay()]: one [animateNumber] per present display; the
    animation is recorded as (element, target). *)
Definition updateScoreDisplay (s : St) : St :=
  let s1 := match getElementById "score-hacker" (dom s) with
            | Some e => set_animations (animations s ++ [(eid e, default 0 (scores s !! "hacker"))]) s
            | None => s
            end in
  match getElementById "score-security" (dom s1) with
  | Some e => set_animations (animations s1 ++ [(eid e, default 0 (scores s1 !! "security"))]) s1
  | None => s1
  end.

(** [updateScore(team, points)]; [hasOwnProperty] is a lookup in the map. *)
Definition updateScore (team : string) (points : Z) (s : St) : St :=
  match scores s !! team with
  | Some v => updateScoreDisplay (set_scores (<[team := v + points]> (scores s)) s)
  | None => s
  end.

(** [setScore(team, points)]. *)
Definition setScore (team : string) (points : Z) (s : St) : St :=
  match scores s !! team with
  | Some _ => updateScoreDisplay (set_scores (<[team := points]> (scores s)) s)
  | None => s
  end.

(** [resetScores()]. *)
Definition resetScores (s : St) : St :=
  updateScoreDisplay (set_scores (<["security" := 0]> (<["hacker" := 0]> (scores s))) s).

(* ------------------------------------------------------------------ *)
(** ** Reveal answers, progress tracker, merkle steps, bug highlighting *)

Definition revealAnswer (elementId : string) (s : St) : St :=
  match getElementById elementId (dom s) with
  | Some e => classAdd "revealed" (eid e) s
  | None => s
  end.

Definition hideAnswer (elementId : string) (s : St) : St :=
  match getElementById elementId (dom s) with
  | Some e => classRemove "revealed" (eid e) s
  | None => s
  end.

Definition markComplete (itemId : string) (s : St) : St :=
  match getElementById itemId (dom s) with
  | Some e => classAdd "completed" (eid e) (classRemove "current" (eid e) s)
  | None => s
  end.

(** The first statement of [setCurrent]: remove "current" from every
    [.progress-item.current]. *)
Definition clearCurrentItems (s : St) : St :=
  forEach (classRemove "current") (querySelectorAll ["progress-item"; "current"] (dom s)) s.

Definition setCurrent (itemId : string) (s : St) : St :=
  let s1 := clearCurrentItems s in
  match getElementById itemId (dom s1) with
  | Some e => if cl_contains "completed" (classes e) then s1
              else classAdd "current" (eid e) s1
  | None => s1
  end.

Definition animateMerkleTree (containerId : string) (s : St) : St :=
  match getElementById containerId (dom s) with
  | None => s
  | Some c =>
      let steps := querySelectorAllIn (eid c) "merkle-step" (dom s) in
      match steps !! merkleAnimationStep s with
      | Some st => set_merkleAnimationStep (S (merkleAnimationStep s))
                     (classAdd "visible" (eid st) s)
      | None => s
      end
  end.

Definition resetMerkleAnimation (containerId : string) (s : St) : St :=
  match getElementById containerId (dom s) with
  | None => s
  | Some c =>
      let s1 := set_merkleAnimationStep 0 s in
      forEach (classRemove "visible") (querySelectorAllIn (eid c) "merkle-step" (dom s1)) s1
  end.

(** [lines[lineNumber - 1]] is [undefined] outside [0 .. length - 1]. *)
Definition highlightBug (codeBlockId : string) (lineNumber : Z) (s : St) : St :=
  match getElementById codeBlockId (dom s) with
  | None => s
  | Some c =>
      let lines := querySelectorAllIn (eid c) "code-line" (dom s) in
      if lineNumber - 1 <? 0 then s
      else match lines !! Z.to_nat (lineNumber - 1) with
           | Some l => classAdd "bug-highlight" (eid l) s
           | None => s
           end
  end.

Definition clearBugHighlights (codeBlockId : string) (s : St) : St :=
  match getElementById codeBlockId (dom s) with
  | None => s
  | Some c =>
      forEach (classRemove "bug-highlight")
        (querySelectorAllIn (eid c) "bug-highlight" (dom s)) s
  end.

(* ------------------------------------------------------------------ *)
(** ** Entry points and runs *)

(** The exported operations that look their target element up by
    identifier. *)
Inductive IdOp :=
| IStartTimer (displayId : string) (seconds : Z) (cb : bool)
| IResetTimer (displayId : string) (seconds : Z)
| IRevealAnswer (elementId : string)
| IHideAnswer (elementId : string)
| IMarkComplete (itemId : string)
| ISetCurrent (itemId : string)
| IHighlightBug (codeBlockId : string) (lineNumber : Z)
| IClearBugHighlights (codeBlockId : string)
| IAnimateMerkleTree (containerId : string)
| IResetMerkleAnimation (containerId : string).

Definition idop_target (o : IdOp) : string :=
  match o with
  | IStartTimer i _ _ | IResetTimer i _ | IRevealAnswer i | IHideAnswer i
  | IMarkComplete i | ISetCurrent i | IHighlightBug i _ | IClearBugHighlights i
  | IAnimateMerkleTree i | IResetMerkleAnimation i => i
  end.

Definition run_idop (o : IdOp) (s : St) : St :=
  match o with
  | IStartTimer i n cb => startTimer i n cb s
  | IResetTimer i n => resetTimer i n s
  | IRevealAnswer i => revealAnswer i s
  | IHideAnswer i => hideAnswer i s
  | IMarkComplete i => markComplete i s
  | ISetCurrent i => setCurrent i s
  | IHighlightBug i n => highlightBug i n s
  | IClearBugHighlights i => clearBugHighlights i s
  | IAnimateMerkleTree i => animateMerkleTree i s
  | IResetMerkleAnimation i => resetMerkleAnimation i s
  end.

(** Events of a session: calls of the exported functions, the
    [slidechanged] handler (which calls [stopTimer]) and interval
    firings. *)
Inductive Op :=
| OCall (o : IdOp)
| OStopTimer
| OSlideChanged
| OFire (h : nat)
| OUpdateScore (team : string) (points : Z)
| OSetScore (team : string) (points : Z)
| OResetScores.

Definition run_op (o : Op) (s : St) : St :=
  match o with
  | OCall c => run_idop c s
  | OStopTimer | OSlideChanged => stopTimer s
  | OFire h => fire h s
  | OUpdateScore t p => updateScore t p s
  | OSetScore t p => setScore t p s
  | OResetScores => resetScores s
  end.

Definition run_ops (os : list Op) (s : St) : St := fold_left (fun acc o => run_op o acc) os s.

(** Page load: the script's globals at their initial values. *)
Definition initSt (d : list Element) : St :=
  mkSt d None 0 [] 1 0 initialScores 0 [] [] [].

(** States reached from page load by events accepted by [ok]. *)
Inductive reach (ok : Op -> Prop) : St -> Prop :=
| reach_init d : reach ok (initSt d)
| reach_step o s : ok o -> reach ok s -> reach ok (run_op o s).

(** Seconds arguments of timer calls are non-negative. *)
Definition nonneg_args (o : Op) : Prop :=
  match o with
  | OCall (IStartTimer _ n _) | OCall (IResetTimer _ n) => 0 <= n
  | _ => True
  end.

(** The running timer fired [k] times. *)
Fixpoint fire_n (h : nat) (k : nat) (s : St) : St :=
  match k with O => s | S k' => fire_n h k' (fire h s) end.

(** A sample page: a timer display, two score displays, a progress list
    and a merkle container with two steps. *)
Definition el0 (i : nat) (id : option string) (cs : list string) (anc : list nat) : Element :=
  mkEl i id cs "" "" "" anc.
Definition page : list Element :=
  [el0 1%nat (Some "timer") [] [];
   el0 2%nat (Some "score-hacker") [] [];
   el0 3%nat (Some "score-security") [] [];
   el0 4%nat (Some "step1") ["progress-item"; "completed"] [];
   el0 5%nat (Some "step2") ["progress-item"; "current"] [];
   el0 6%nat (Some "merkle") [] [];
   el0 7%nat None ["merkle-step"] [6%nat];
   el0 8%nat None ["merkle-step"] [6%nat]].


(* ------------------------------------------------------------------ *)
(** ** Number formatting *)

(** [\d] and [\w] on one character. *)
Definition is_digit (c : ascii) : bool :=
  let n := nat_of_ascii c in Nat.leb 48 n && Nat.leb n 57.
Definition is_word (c : ascii) : bool :=
  let n := nat_of_ascii c in
  is_digit c || (Nat.leb 65 n && Nat.leb n 90) || (Nat.leb 97 n && Nat.leb n 122)
  || Nat.eqb n 95.

(** [\w] on the character next to a position; [None] is off the end. *)
Definition word_at (o : option ascii) : bool :=
  match o with Some c => is_word c | None => false end.

Definition starts_with_digit (l : list ascii) : bool :=
  match l with c :: _ => is_digit c | [] => false end.

(** The lookahead [(\d{3})+(?!\d)] at the front of [l]. *)
Fixpoint digit_groups (l : list ascii) : bool :=
  match l with
  | a :: b :: c :: rest =>
      is_digit a && is_digit b && is_digit c
      && (negb (starts_with_digit rest) || digit_groups rest)
  | _ => false
  end.

(** [s.replace(/\B(?=(\d{3})+(?!\d))/g, ",")]: the pattern only matches
    the empty string, so every position is tried; a "," is inserted at
    each position where [\B] (same [\w]-ness on both sides) and the
    lookahead hold.  [prev] is the character before [l]. *)
Fixpoint insert_commas (prev : option ascii) (l : list ascii) : list ascii :=
  let here := if Bool.eqb (word_at prev) (word_at (head l)) && digit_groups l
              then [","%char] else [] in
  match l with
  | [] => here
  | c :: rest => here ++ c :: insert_commas (Some c) rest
  end.

Definition replaceThousands (t : string) : string :=
  String.string_of_list_ascii (insert_commas None (String.list_ascii_of_string t)).

(** [formatNumber(num)] for an integral [num] below 10^21 in magnitude,
    whose [toString()] is its plain decimal form. *)
Definition formatNumber (num : Z) : string := replaceThousands (Z_to_string num).

Definition formatCurrency (amount : Z) : string := "$" +:+ formatNumber amount.

(* ------------------------------------------------------------------ *)
(** ** Reading a number back: [parseInt(s) || 0] *)

(** [StrWhiteSpaceChar] among 8-bit characters. *)
Definition is_space (c : ascii) : bool :=
  existsb (Nat.eqb (nat_of_ascii c)) [9; 10; 11; 12; 13; 32; 160]%nat.

Fixpoint trim_start (l : list ascii) : list ascii :=
  match l with
  | c :: r => if is_space c then trim_start r else l
  | [] => []
  end.

(** Value of a character as a digit of radix up to 36. *)
Definition digit_value (c : ascii) : option Z :=
  let n := Z.of_nat (nat_of_ascii c) in
  if (48 <=? n) && (n <=? 57) then Some (n - 48)
  else if (97 <=? n) && (n <=? 122) then Some (n - 87)
  else if (65 <=? n) && (n <=? 90) then Some (n - 55)
  else None.

(** The longest prefix of radix-[radix] digits; [None] when it is empty. *)
Fixpoint digits_prefix (radix acc : Z) (seen : bool) (l : list ascii) : option Z :=
  match l with
  | c :: r =>
      match digit_value c with
      | Some v => if v <? radix then digits_prefix radix (acc * radix + v) true r
                  else if seen then Some acc else None
      | None => if seen then Some acc else None
      end
  | [] => if seen then Some acc else None
  end.

(** [parseInt(s)] without a radix; [None] is [NaN].  The value is the
    exact mathematical one, which is the number JavaScript returns up to
    2^53 in magnitude. *)
Definition parseInt (s : string) : option Z :=
  let l := trim_start (String.list_ascii_of_string s) in
  let '(sign, l1) := match l with
                     | c :: r => if Ascii.eqb c "-" then (-1, r)
                                 else if Ascii.eqb c "+" then (1, r) else (1, l)
                     | [] => (1, l)
                     end in
  let '(radix, l2) := match l1 with
                      | z :: x :: r => if Ascii.eqb z "0" && (Ascii.eqb x "x" || Ascii.eqb x "X")
                                       then (16, r) else (10, l1)
                      | _ => (10, l1)
                      end in
  option_map (fun v => sign * v) (digits_prefix radix 0 false l2).

(** [parseInt(s) || 0]: [NaN] and zero are falsy. *)
Definition parseInt_or0 (s : string) : Z :=
  match parseInt s with Some v => v | None => 0 end.

(* ------------------------------------------------------------------ *)
(** ** Score animation: [animateNumber(element, targetValue)] *)

(** A running [animateNumber] interval: its handle, the element, the
    [currentValue] read at the call, [targetValue] and [step]. *)
Record Anim := mkAnim {
  an_id : nat;
  an_el : nat;
  an_from : Z;
  an_to : Z;
  an_step : nat
}.

(** The page, the live animation intervals and the next browser handle. *)
Record NumSt := mkNumSt {
  n_dom : list Element;
  n_live : list Anim;
  n_next : nat
}.

Definition el_text (i : nat) (d : list Element) : string :=
  match find_el i d with Some e => text e | None => "" end.

(** [const steps = 20]. *)
Definition anim_steps : nat := 20.

Section AnimateNumber.

(** [Math.round(currentValue + stepValue * step)] with
    [stepValue = (targetValue - currentValue) / steps], evaluated in
    binary64 from [currentValue], [targetValue] and [step]; the results
    below hold whatever it computes. *)
Variable roundFrame : Z -> Z -> nat -> Z.

Definition animateNumber (element : nat) (targetValue : Z) (s : NumSt) : NumSt :=
  let currentValue := parseInt_or0 (el_text element (n_dom s)) in
  let h := n_next s in
  mkNumSt (n_dom s) (n_live s ++ [mkAnim h element currentValue targetValue 0]) (S h).

Definition num_setText (i : nat) (t : string) (s : NumSt) : NumSt :=
  mkNumSt (modify_el i (el_set_text t) (n_dom s)) (n_live s) (n_next s).

Definition num_clearInterval (h : nat) (s : NumSt) : NumSt :=
  mkNumSt (n_dom s) (filter (fun a => an_id a <> h) (n_live s)) (n_next s).

Definition num_set_step (h k : nat) (s : NumSt) : NumSt :=
  mkNumSt (n_dom s)
    (map (fun a => if Nat.eqb (an_id a) h then mkAnim (an_id a) (an_el a) (an_from a) (an_to a) k
                   else a) (n_live s))
    (n_next s).

(** One run of the interval callback of [animateNumber]. *)
Definition animTick (a : Anim) (s : NumSt) : NumSt :=
  let step := S (an_step a) in
  let s1 := num_setText (an_el a) (Z_to_string (roundFrame (an_from a) (an_to a) step))
              (num_set_step (an_id a) step s) in
  if Nat.leb anim_steps step
  then num_setText (an_el a) (Z_to_string (an_to a)) (num_clearInterval (an_id a) s1)
  else s1.

Definition fireNum (h : nat) (s : NumSt) : NumSt :=
  match find (fun a => Nat.eqb (an_id a) h) (n_live s) with
  | Some a => animTick a s
  | None => s
  end.

Fixpoint fireNum_n (h : nat) (k : nat) (s : NumSt) : NumSt :=
  match k with O => s | S k' => fireNum_n h k' (fireNum h s) end.

End AnimateNumber.


(* ------------------------------------------------------------------ *)
(** ** Reveal-all and the reveal-answer click listeners *)

(** [revealAllAnswers()]; [Reveal.getCurrentSlide()] is the identity of
    the current slide element, [None] when there is none. *)
Definition revealAllAnswers (currentSlide : option nat) (s : St) : St :=
  match currentSlide with
  | Some slide => forEach (classAdd "revealed") (querySelectorAllIn slide "reveal-answer" (dom s)) s
  | None => s
  end.

(** [classList.toggle(c)]. *)
Definition cl_toggle (c : string) (cs : list string) : list string :=
  if cl_contains c cs then cl_remove c cs else cl_add c cs.
Definition classToggle (c : string) (i : nat) (s : St) : St :=
  set_dom (modify_el i (fun e => el_set_classes (cl_toggle c (classes e)) e) (dom s)) s.

(** [initRevealAnswers()]: the elements that get the click listener, in
    document order. *)
Definition initRevealAnswers (s : St) : list nat :=
  map eid (querySelectorAll ["reveal-answer"] (dom s)).

(** A click on element [target]: the event bubbles from the target
    through its ancestors, and each listener registered on one of them
    toggles "revealed" on the element it was registered on ([this]).
    Toggles of distinct elements commute, so the listeners are run in
    the order they were registered. *)
Definition clickReveal (listeners : list nat) (target : nat) (s : St) : St :=
  match find_el target (dom s) with
  | None => s
  | Some t =>
      fold_left (fun acc l => if Nat.eqb l target || existsb (Nat.eqb l) (ancestors t)
                              then classToggle "revealed" l acc else acc) listeners s
  end.

(* ------------------------------------------------------------------ *)
(** ** Copy to clipboard *)

(** The copy button of a code block: its [textContent] and
    [style.background], the clipboard, the [writeText] promises not yet
    settled (the text each one copies), the [setTimeout(..., 2000)]
    callbacks not yet run (the [originalText] each one captured), and
    the console. *)
Record CopySt := mkCopy {
  btn_text : string;
  btn_bg : string;
  clipboard : string;
  pending : list string;
  restores : list string;
  copyLog : list string
}.

(** [copyCode(buttonElement)]; [code] is the [textContent] of
    [buttonElement.closest('.code-block').querySelector('code')], [None]
    when either lookup gives [null]. *)
Definition copyCode (code : option string) (c : CopySt) : CopySt :=
  match code with
  | None => c
  | Some t => mkCopy (btn_text c) (btn_bg c) (clipboard c) (pending c ++ [t]) (restores c) (copyLog c)
  end.

(** The oldest pending [writeText] promise settles: its [then] or
    [catch] callback runs. *)
Definition settleCopy (ok : bool) (err : string) (c : CopySt) : CopySt :=
  match pending c with
  | [] => c
  | t :: rest =>
      if ok then mkCopy "Copied!" "#10b981" t rest (restores c ++ [btn_text c]) (copyLog c)
      else mkCopy "Failed" (btn_bg c) (clipboard c) rest (restores c)
             (copyLog c ++ ["Failed to copy:" +:+ err])
  end.

(** The oldest pending 2000 ms timeout runs (all have the same delay). *)
Definition copyTimeout (c : CopySt) : CopySt :=
  match restores c with
  | [] => c
  | o :: rest => mkCopy o "" (clipboard c) (pending c) rest (copyLog c)
  end.

(** Events of the copy button: a click, a settled promise, a timeout. *)
Inductive CopyEv :=
| CClick (code : option string)
| CSettle (ok : bool) (err : string)
| CTimeout.

Definition run_copy_ev (ev : CopyEv) (c : CopySt) : CopySt :=
  match ev with
  | CClick code => copyCode code c
  | CSettle ok err => settleCopy ok err c
  | CTimeout => copyTimeout c
  end.

Definition run_copy (evs : list CopyEv) (c : CopySt) : CopySt :=
  fold_left (fun acc ev => run_copy_ev ev acc) evs c.

(* ------------------------------------------------------------------ *)
(** ** Live hash demos *)

(** An output element of the hash demos: [textContent], [style.color],
    [style.opacity]. *)
Record Out := mkOut {
  out_text : string;
  out_color : string;
  out_opacity : string
}.

Definition hashPlaceholder : string := "Enter text above to see its hash...".

(** [updateHash()] of [initHashDemo] on the input's [value]: the new
    output and the console lines.  A rejected [await] would leave the
    output as it was. *)
Definition updateHash (ethers : option Ethers) (value : string) (o : Out) : Out * list string :=
  if Nat.eqb (String.length value) 0 then (mkOut hashPlaceholder (out_color o) "0.5", [])
  else let '(l, r) := computeKeccakHash ethers value in
       match r with
       | Normal h => (mkOut h (out_color o) "1", l)
       | Throw _ => (o, l)
       end.

(** [highlightHashDifferences(el1, el2, hash1, hash2)]. *)
Definition highlightHashDifferences (el1 el2 : Out) (hash1 hash2 : string) : Out * Out :=
  if negb (String.eqb hash1 hash2)
  then (mkOut (out_text el1) "#ef4444" (out_opacity el1), mkOut (out_text el2) "#10b981" (out_opacity el2))
  else (mkOut (out_text el1) "#4a9ea4" (out_opacity el1), mkOut (out_text el2) "#4a9ea4" (out_opacity el2)).

(** [updateHashes()] of [initHashComparison] on the two inputs' values. *)
Definition updateHashes (ethers : option Ethers) (v1 v2 : string) (o1 o2 : Out)
    : Out * Out * list string :=
  let '(l1, r1) := computeKeccakHash ethers v1 in
  match r1 with
  | Throw _ => (o1, o2, l1)
  | Normal hash1 =>
      let '(l2, r2) := computeKeccakHash ethers v2 in
      match r2 with
      | Throw _ => (o1, o2, l1 ++ l2)
      | Normal hash2 =>
          let '(a, b) := highlightHashDifferences (mkOut hash1 (out_color o1) (out_opacity o1))
                           (mkOut hash2 (out_color o2) (out_opacity o2)) hash1 hash2 in
          (a, b, l1 ++ l2)
      end
  end%list.


(** *** Auxiliary notions used by the properties *)

(** The score object has exactly the two own properties of its literal. *)
Definition known_keys (m : gmap string Z) : Prop :=
  forall k, is_Some (m !! k) <-> k = "hacker" \/ k = "security".

(** Either no timer runs, or exactly one interval is live and
    [timerInterval] holds its handle. *)
Definition timer_inv (s : St) : Prop :=
  (timerInterval s = None /\ live s = [])
  \/ (exists iv, timerInterval s = Some (iv_id iv) /\ live s = [iv]).

Definition tf (s : St) : Z * option nat * list Interval :=
  (timerSeconds s, timerInterval s, live s).

Definition sec_inv (s : St) : Prop :=
  -1 <= timerSeconds s /\ (live s <> [] -> 0 <= timerSeconds s).

(** The "M:SS" format read from the spec: minutes in decimal, then the
    seconds as exactly two decimal digits. *)
Definition digit (v : Z) : ascii := Ascii.ascii_of_N (48 + Z.to_N v).
Definition mss (t : Z) : string :=
  Z_to_string (t / 60) +:+ ":"
  +:+ String (digit ((t mod 60) / 10)) (String (digit ((t mod 60) mod 10)) "").

(** [forEach] removing a class from a list of elements. *)
Definition removed_from (c : string) (els : list Element) (e : Element) : Element :=
  if existsb (Nat.eqb (eid e)) (map eid els) then el_set_classes (cl_remove c (classes e)) e
  else e.

Definition all_digits (s : string) : bool := forallb is_digit (String.list_ascii_of_string s).

(** The value of a decimal digit string, read after [acc]. *)
Definition dec_value (acc : Z) (l : list ascii) : Z :=
  fold_left (fun a c => a * 10 + (Z.of_nat (nat_of_ascii c) - 48)) l acc.

(** [forEach] adding a class to a list of elements. *)
Definition added_to (c : string) (els : list Element) (e : Element) : Element :=
  if existsb (Nat.eqb (eid e)) (map eid els) then el_set_classes (cl_add c (classes e)) e
  else e.

(** An element under [slide] with class "reveal-answer". *)
Definition in_slide_answer (slide : nat) (e : Element) : bool :=
  existsb (Nat.eqb slide) (ancestors e) && cl_contains "reveal-answer" (classes e).

(** "bug-highlight" removed from the elements under [block]. *)
Definition clear_in_block (block : nat) (e : Element) : Element :=
  if existsb (Nat.eqb block) (ancestors e)
  then el_set_classes (cl_remove "bug-highlight" (classes e)) e else e.

Definition merkle_steps (c : Element) (d : list Element) : list Element :=
  querySelectorAllIn (eid c) "merkle-step" d.

(** "revealed" toggled on the elements whose identity satisfies [P]. *)
Definition toggled (P : nat -> bool) (e : Element) : Element :=
  if P (eid e) then el_set_classes (cl_toggle "revealed" (classes e)) e else e.

(** A listener is registered on [i], and [i] is the click target or one
    of its ancestors. *)
Definition on_path (ls : list nat) (target : nat) (t : Element) (i : nat) : bool :=
  existsb (Nat.eqb i) ls && (Nat.eqb i target || existsb (Nat.eqb i) (ancestors t)).

(* ================================================================== *)
(** * Properties *)

(** Sample runs. *)

Example truncateHash_default :
  truncateHash "0x1234567890abcdef" 6 4 = "0x1234...cdef".
Proof. reflexivity. Qed.

Example Z_to_string_ex : Z_to_string 125 = "125" /\ Z_to_string (-1) = "-1"
  /\ Z_to_string 0 = "0".
Proof. repeat split; reflexivity. Qed.

Example timer_five :
  let s := fire_n 1%nat 5%nat (startTimer "timer" 5 true (initSt page)) in
  timerSeconds s = 0 /\ timerInterval s = None /\ live s = [] /\ completions s = 1%nat
  /\ option_map text (find_el 1%nat (dom s)) = Some "TIME'S UP!"
  /\ drop 4%nat (textTrace s) = [(1%nat, "0:01"); (1%nat, "0:00"); (1%nat, "TIME'S UP!")].
Proof. vm_compute. repeat split. Qed.

(* ------------------------------------------------------------------ *)
(** ** Hash demo and utilities *)

(** C7: [computeKeccakHash] always completes normally: without [ethers]
    it returns the missing-library message, when [toUtf8Bytes] or
    [keccak256] throws it returns the computation-error message (a
    different string), and otherwise the hash of the UTF-8 bytes. *)
Theorem computeKeccakHash_never_throws (ethers : option Ethers) (input : string) :
  (exists r, snd (computeKeccakHash ethers input) = Normal r)
  /\ (ethers = None -> snd (computeKeccakHash ethers input) = Normal "Error: ethers.js not loaded")
  /\ (forall e err, ethers = Some e ->
        (toUtf8Bytes e input = Throw err
         \/ exists bytes, toUtf8Bytes e input = Normal bytes /\ keccak256 e bytes = Throw err) ->
        snd (computeKeccakHash ethers input) = Normal "Error computing hash")
  /\ (forall e bytes hash, ethers = Some e -> toUtf8Bytes e input = Normal bytes ->
        keccak256 e bytes = Normal hash ->
        snd (computeKeccakHash ethers input) = Normal hash)
  /\ "Error: ethers.js not loaded" <> "Error computing hash".
Proof.
  split; [|split; [|split; [|split]]].
  - destruct ethers as [e|]; simpl; [|eauto].
    destruct (toUtf8Bytes e input) as [b|]; [destruct (keccak256 e b)|]; eauto.
  - intros ->. reflexivity.
  - intros e err -> [Hu | (bytes & Hu & Hk)]; simpl; rewrite Hu; [reflexivity|].
    rewrite Hk. reflexivity.
  - intros e bytes hash -> Hu Hk. simpl. rewrite Hu, Hk. reflexivity.
  - discriminate.
Qed.

Lemma js_substring_prefix (s : string) (n : nat) :
  (n <= String.length s)%nat -> js_substring s 0 n = String.substring 0 n s.
Proof.
  intros H. unfold js_substring.
  rewrite (Nat.min_l n) by lia. rewrite Nat.min_l, Nat.max_r by lia.
  f_equal. lia.
Qed.

Lemma js_substring_suffix (s : string) (n : nat) :
  (n <= String.length s)%nat ->
  js_substring s (String.length s - n) (String.length s)
  = String.substring (String.length s - n) n s.
Proof.
  intros H. unfold js_substring.
  rewrite !Nat.min_l, Nat.max_r by lia. f_equal. lia.
Qed.

(** C8: a hash shorter than [startChars + endChars + 3] comes back
    unchanged; a longer one becomes its first [startChars] characters,
    "...", and its last [endChars] characters. *)
Theorem truncateHash_spec (hash : string) (startChars endChars : nat) :
  ((String.length hash < startChars + endChars + 3)%nat ->
     truncateHash hash startChars endChars = hash)
  /\ ((startChars + endChars + 3 < String.length hash)%nat ->
     truncateHash hash startChars endChars
     = String.substring 0 startChars hash +:+ "..."
       +:+ String.substring (String.length hash - endChars) endChars hash).
Proof.
  unfold truncateHash. split; intros H.
  - rewrite (proj2 (Nat.leb_le _ _)) by lia. reflexivity.
  - rewrite (proj2 (Nat.leb_gt _ _)) by lia.
    rewrite js_substring_prefix, js_substring_suffix by lia. reflexivity.
Qed.

(* ------------------------------------------------------------------ *)
(** ** stopTimer *)

(** C10: [stopTimer] only drops the interval handle: the script's other
    globals and the page are untouched, and a second call changes
    nothing. *)
Theorem stopTimer_frame (s : St) :
  timerInterval (stopTimer s) = None
  /\ timerSeconds (stopTimer s) = timerSeconds s
  /\ dom (stopTimer s) = dom s
  /\ textTrace (stopTimer s) = textTrace s
  /\ completions (stopTimer s) = completions s
  /\ scores (stopTimer s) = scores s
  /\ merkleAnimationStep (stopTimer s) = merkleAnimationStep s
  /\ consoleLog (stopTimer s) = consoleLog s
  /\ animations (stopTimer s) = animations s
  /\ nextHandle (stopTimer s) = nextHandle s
  /\ (timerInterval s = None -> stopTimer s = s)
  /\ stopTimer (stopTimer s) = stopTimer s.
Proof.
  unfold stopTimer. destruct (timerInterval s) eqn:E; simpl.
  - repeat split; try reflexivity. discriminate.
  - repeat split; try reflexivity; auto; rewrite E; reflexivity.
Qed.

(* ------------------------------------------------------------------ *)
(** ** Frame lemmas *)

Lemma forEach_proj {A} (p : St -> A) (f : nat -> St -> St) (els : list Element) (s : St) :
  (forall i s', p (f i s') = p s') -> p (forEach f els s) = p s.
Proof.
  intros Hf. unfold forEach. revert s.
  induction els as [|e els IH]; intros s; simpl; [reflexivity|].
  rewrite IH. apply Hf.
Qed.

Ltac unfold_ops :=
  unfold run_idop, startTimer, resetTimer, stopTimer, revealAnswer, hideAnswer,
    markComplete, setCurrent, clearCurrentItems, highlightBug, clearBugHighlights,
    animateMerkleTree, resetMerkleAnimation, updateScore, setScore, resetScores,
    updateScoreDisplay, updateTimerDisplay, fire, tick, expire in *.

Ltac solve_proj :=
  unfold_ops; repeat (case_match; simpl);
  repeat (rewrite forEach_proj; [|intros; reflexivity]); simpl; reflexivity.

(** The identifier operations other than the timer's leave the timer
    globals and the interval table alone. *)
Lemma idop_timer_frame (o : IdOp) (s : St) :
  (forall i n cb, o <> IStartTimer i n cb) -> (forall i n, o <> IResetTimer i n) ->
  timerInterval (run_idop o s) = timerInterval s
  /\ live (run_idop o s) = live s /\ timerSeconds (run_idop o s) = timerSeconds s.
Proof.
  intros H1 H2. destruct o; [exfalso; by eapply H1 | exfalso; by eapply H2 | ..];
    repeat split; solve_proj.
Qed.

Lemma idop_scores (o : IdOp) (s : St) : scores (run_idop o s) = scores s.
Proof. destruct o; solve_proj. Qed.

Lemma fire_scores (h : nat) (s : St) : scores (fire h s) = scores s.
Proof. solve_proj. Qed.

Lemma stopTimer_scores (s : St) : scores (stopTimer s) = scores s.
Proof. solve_proj. Qed.

Lemma score_ops_timer (s : St) t p :
  (timerInterval (updateScore t p s) = timerInterval s /\ live (updateScore t p s) = live s
   /\ timerSeconds (updateScore t p s) = timerSeconds s)
  /\ (timerInterval (setScore t p s) = timerInterval s /\ live (setScore t p s) = live s
   /\ timerSeconds (setScore t p s) = timerSeconds s)
  /\ (timerInterval (resetScores s) = timerInterval s /\ live (resetScores s) = live s
   /\ timerSeconds (resetScores s) = timerSeconds s).
Proof. repeat split; solve_proj. Qed.

(* ------------------------------------------------------------------ *)
(** ** Scoreboard *)


Lemma known_keys_insert (m : gmap string Z) k v :
  known_keys m -> (k = "hacker" \/ k = "security") -> known_keys (<[k := v]> m).
Proof.
  intros Hm Hk k'. rewrite lookup_insert. case_decide as E.
  - subst. split; [intros _; exact Hk | intros _; eauto].
  - apply Hm.
Qed.

Lemma known_keys_initial : known_keys initialScores.
Proof.
  intros k. unfold initialScores. rewrite !lookup_insert.
  repeat case_decide; subst; rewrite ?lookup_empty; split; intros Hl;
    try (destruct Hl as [? Hl]; discriminate); eauto; intuition congruence.
Qed.

Lemma reach_known_keys (ok : Op -> Prop) (s : St) : reach ok s -> known_keys (scores s).
Proof.
  induction 1 as [d | o s _ _ IH].
  - apply known_keys_initial.
  - destruct o; simpl.
    + by rewrite idop_scores.
    + by rewrite stopTimer_scores.
    + by rewrite stopTimer_scores.
    + by rewrite fire_scores.
    + unfold updateScore. destruct (scores s !! team) eqn:E; [|exact IH].
      unfold updateScoreDisplay. repeat (case_match; simpl);
        apply known_keys_insert; auto; apply IH; eauto.
    + unfold setScore. destruct (scores s !! team) eqn:E; [|exact IH].
      unfold updateScoreDisplay. repeat (case_match; simpl);
        apply known_keys_insert; auto; apply IH; eauto.
    + unfold resetScores, updateScoreDisplay. repeat (case_match; simpl);
        repeat apply known_keys_insert; auto.
Qed.

Lemma updateScoreDisplay_scores (s : St) : scores (updateScoreDisplay s) = scores s.
Proof. solve_proj. Qed.

Lemma updateScore_scores (t : string) (p : Z) (s : St) :
  scores (updateScore t p s)
  = match scores s !! t with Some v => <[t := v + p]> (scores s) | None => scores s end.
Proof.
  unfold updateScore. destruct (scores s !! t); [|reflexivity].
  rewrite updateScoreDisplay_scores. reflexivity.
Qed.

(** C1: on every reachable state, [updateScore] adds and [setScore] sets
    exactly when the team is "hacker" or "security"; any other key leaves
    the scores as they were.  From page load, +5 then -2 on "hacker"
    gives 3. *)
Theorem score_ops_known_teams (ok : Op -> Prop) (s : St) (team : string) (delta : Z) :
  reach ok s ->
  ((team = "hacker" \/ team = "security") <->
     exists v, scores s !! team = Some v
       /\ scores (updateScore team delta s) = <[team := v + delta]> (scores s)
       /\ scores (setScore team delta s) = <[team := delta]> (scores s))
  /\ (team <> "hacker" -> team <> "security" ->
        scores (updateScore team delta s) = scores s
        /\ scores (setScore team delta s) = scores s)
  /\ (forall d, scores (updateScore "hacker" (-2) (updateScore "hacker" 5 (initSt d))) !! "hacker"
                = Some 3).
Proof.
  intros Hr. pose proof (reach_known_keys ok s Hr) as Hk.
  split; [split|split].
  - intros Ht. destruct (proj2 (Hk team) Ht) as [v Hv]. exists v.
    unfold updateScore, setScore. rewrite Hv, !updateScoreDisplay_scores. auto.
  - intros (v & Hv & _). apply Hk. eauto.
  - intros H1 H2. assert (scores s !! team = None) as Hn.
    { destruct (scores s !! team) eqn:E; [|reflexivity].
      exfalso. destruct (proj1 (Hk team) (ltac:(eauto))); auto. }
    unfold updateScore, setScore. rewrite Hn. auto.
  - intros d. rewrite !updateScore_scores. reflexivity.
Qed.

(* ------------------------------------------------------------------ *)
(** ** The interval handle *)



Lemma tf_if_color (b : bool) (d : nat) (c : string) (x : St) :
  tf (if b then setColor d c x else x) = tf x.
Proof. destruct b; reflexivity. Qed.

Lemma expire_tf (iv : Interval) (s : St) :
  tf (expire iv s) = (timerSeconds s, None,
                      match timerInterval s with
                      | Some h => live (clearInterval h s)
                      | None => live s
                      end).
Proof.
  unfold expire. destruct (timerInterval s), (iv_cb iv); reflexivity.
Qed.

Lemma tick_tf (iv : Interval) (s : St) :
  tf (tick iv s)
  = if timerSeconds s - 1 <=? 0
    then (timerSeconds s - 1, None,
          match timerInterval s with
          | Some h => live (clearInterval h s)
          | None => live s
          end)
    else (timerSeconds s - 1, timerInterval s, live s).
Proof.
  unfold tick. rewrite !tf_if_color.
  change (timerSeconds (updateTimerDisplay (iv_display iv)
            (set_timerSeconds (timerSeconds s - 1) s))) with (timerSeconds s - 1).
  destruct (timerSeconds s - 1 <=? 0); [rewrite expire_tf|]; reflexivity.
Qed.

Lemma clearInterval_only (iv : Interval) (s : St) :
  live s = [iv] -> live (clearInterval (iv_id iv) s) = [].
Proof.
  intros Hl. unfold clearInterval. simpl. rewrite Hl.
  rewrite filter_cons_False; [reflexivity|]. congruence.
Qed.

Lemma stopTimer_inv (s : St) :
  timer_inv s -> timerInterval (stopTimer s) = None /\ live (stopTimer s) = [].
Proof.
  intros [[Ht Hl] | (iv & Ht & Hl)]; unfold stopTimer; rewrite Ht; [auto|].
  split; [reflexivity|]. apply (clearInterval_only iv s Hl).
Qed.

Lemma fire_cases (h : nat) (s : St) :
  timer_inv s ->
  fire h s = s
  \/ exists iv, live s = [iv] /\ iv_id iv = h /\ timerInterval s = Some h /\ fire h s = tick iv s.
Proof.
  unfold fire. intros [[Ht Hl] | (iv & Ht & Hl)]; rewrite Hl; simpl; [auto|].
  destruct (Nat.eqb_spec (iv_id iv) h) as [E|E]; [|auto].
  right. exists iv. subst h. auto.
Qed.

Lemma fire_inv (h : nat) (s : St) : timer_inv s -> timer_inv (fire h s).
Proof.
  intros Hi. destruct (fire_cases h s Hi) as [-> | (iv & Hl & Hh & Ht & ->)]; [exact Hi|].
  pose proof (tick_tf iv s) as T. unfold tf in T.
  destruct (timerSeconds s - 1 <=? 0); rewrite Ht in T; injection T as _ T1 T2.
  - left. rewrite T1, T2. subst h. split; [reflexivity|]. by apply clearInterval_only.
  - right. exists iv. rewrite T1, T2. subst h. auto.
Qed.

Lemma startTimer_inv (i : string) (n : Z) (cb : bool) (s : St) :
  timer_inv s -> timer_inv (startTimer i n cb s).
Proof.
  intros Hi. unfold startTimer. destruct (getElementById i (dom s)) as [d|]; [|exact Hi].
  right. exists (mkIv (nextHandle s) (eid d) cb).
  destruct Hi as [[Ht Hl] | (iv & Ht & Hl)]; rewrite Ht; simpl; split; try reflexivity.
  - rewrite Hl. reflexivity.
  - pose proof (clearInterval_only iv s Hl) as C. unfold clearInterval in C.
    simpl in C. rewrite C. reflexivity.
Qed.

Lemma resetTimer_inv (i : string) (n : Z) (s : St) :
  timer_inv s -> timerInterval (resetTimer i n s) = None /\ live (resetTimer i n s) = [].
Proof.
  intros Hi. destruct (stopTimer_inv s Hi) as [Ht Hl].
  unfold resetTimer. destruct (getElementById i (dom (stopTimer s))); simpl; auto.
Qed.

Lemma run_op_inv (o : Op) (s : St) : timer_inv s -> timer_inv (run_op o s).
Proof.
  intros Hi. destruct o as [c | | | h | t p | t p |]; cbn [run_op].
  - destruct c as [i n cb | i n | | | | | | | |];
      try (apply (startTimer_inv i n cb s Hi));
      try (left; apply (resetTimer_inv i n s Hi));
      (unfold timer_inv; match goal with
       | |- context [run_idop ?c s] =>
           destruct (idop_timer_frame c s ltac:(intros; discriminate)
                       ltac:(intros; discriminate)) as (-> & -> & _)
       end; exact Hi).
  - left. by apply stopTimer_inv.
  - left. by apply stopTimer_inv.
  - by apply fire_inv.
  - unfold timer_inv. destruct (score_ops_timer s t p) as [(-> & -> & _) _]. exact Hi.
  - unfold timer_inv. destruct (score_ops_timer s t p) as [_ [(-> & -> & _) _]]. exact Hi.
  - unfold timer_inv. destruct (score_ops_timer s "" 0) as [_ [_ (-> & -> & _)]]. exact Hi.
Qed.

Lemma reach_timer_inv (ok : Op -> Prop) (s : St) : reach ok s -> timer_inv s.
Proof.
  induction 1 as [d | o s _ _ IH]; [left; auto | by apply run_op_inv].
Qed.

(** C2: in every state reached by any sequence of timer calls, firings
    and other events, at most one interval is live, and it is the one
    [timerInterval] names (so [startTimer], [stopTimer] and [resetTimer]
    cancel it). *)
Theorem at_most_one_live_timer (ok : Op -> Prop) (s : St) :
  reach ok s ->
  (length (live s) <= 1)%nat
  /\ (forall iv, In iv (live s) -> timerInterval s = Some (iv_id iv)).
Proof.
  intros Hr. destruct (reach_timer_inv ok s Hr) as [[Ht Hl] | (iv & Ht & Hl)];
    rewrite Hl; simpl.
  - split; [lia | tauto].
  - split; [lia|]. intros iv' [<- | []]. exact Ht.
Qed.

(* ------------------------------------------------------------------ *)
(** ** Remaining seconds *)


Lemma run_op_sec_inv (o : Op) (s : St) :
  nonneg_args o -> timer_inv s -> sec_inv s -> sec_inv (run_op o s).
Proof.
  intros Hok Hi [Hs1 Hs2]. unfold sec_inv.
  destruct o as [c | | | h | t p | t p |]; cbn [run_op].
  - destruct c as [i n cb | i n | i | i | i | i | i ln | i | i | i]; simpl in Hok;
      [ | | match goal with
            | |- context [run_idop ?c s] =>
                destruct (idop_timer_frame c s ltac:(intros; discriminate)
                            ltac:(intros; discriminate)) as (_ & -> & ->)
            end; split; assumption .. ].
    + simpl. unfold startTimer. destruct (getElementById i (dom s)); [|split; auto].
      simpl. destruct (timerInterval s); simpl; split; intros; lia.
    + simpl. destruct (resetTimer_inv i n s Hi) as [_ ->]. split; [|congruence].
      unfold resetTimer. destruct (getElementById i (dom (stopTimer s))); simpl; [lia|].
      rewrite (proj1 (proj2 (stopTimer_frame s))). exact Hs1.
  - destruct (stopTimer_inv s Hi) as [_ ->].
    rewrite (proj1 (proj2 (stopTimer_frame s))). split; [exact Hs1 | congruence].
  - destruct (stopTimer_inv s Hi) as [_ ->].
    rewrite (proj1 (proj2 (stopTimer_frame s))). split; [exact Hs1 | congruence].
  - destruct (fire_cases h s Hi) as [-> | (iv & Hl & Hh & Ht & ->)]; [split; assumption|].
    assert (0 <= timerSeconds s) as H0 by (apply Hs2; congruence).
    pose proof (tick_tf iv s) as T. unfold tf in T.
    destruct (Z.leb_spec (timerSeconds s - 1) 0); rewrite Ht in T; injection T as T0 _ T2;
      rewrite T0, T2.
    + subst h. pose proof (clearInterval_only iv s Hl) as C.
      unfold clearInterval in C. simpl in C. rewrite C. split; [lia | congruence].
    + split; intros; lia.
  - destruct (score_ops_timer s t p) as [(_ & -> & ->) _]. split; assumption.
  - destruct (score_ops_timer s t p) as [_ [(_ & -> & ->) _]]. split; assumption.
  - destruct (score_ops_timer s "" 0) as [_ [_ (_ & -> & ->)]]. split; assumption.
Qed.

Lemma reach_sec_inv (s : St) : reach nonneg_args s -> sec_inv s.
Proof.
  induction 1 as [d | o s Hok Hr IH].
  - unfold sec_inv. simpl. split; [lia | congruence].
  - apply run_op_sec_inv; [exact Hok | exact (reach_timer_inv _ s Hr) | exact IH].
Qed.

(** C5 (counterexample): a timer started with 0 seconds ticks once and
    leaves [-1] in [timerSeconds]. *)
Lemma timer_zero_goes_negative :
  let s := run_ops [OCall (IStartTimer "timer" 0 false); OFire 1%nat] (initSt page) in
  reach nonneg_args s /\ timerSeconds s = -1.
Proof.
  intros s. split; [|vm_compute; reflexivity].
  change (reach nonneg_args (run_op (OFire 1%nat)
            (run_op (OCall (IStartTimer "timer" 0 false)) (initSt page)))).
  apply reach_step; [exact I|]. apply reach_step; [simpl; lia|]. apply reach_init.
Qed.

(** C5 (amended): with non-negative arguments the remaining seconds
    never drop below [-1]; they are non-negative whenever an interval is
    live, and a negative value only occurs once the timer is stopped. *)
Theorem timer_seconds_lower_bound (s : St) :
  reach nonneg_args s ->
  -1 <= timerSeconds s
  /\ (live s <> [] -> 0 <= timerSeconds s)
  /\ (timerSeconds s < 0 -> timerInterval s = None /\ live s = []).
Proof.
  intros Hr. destruct (reach_sec_inv s Hr) as [H1 H2].
  split; [exact H1 | split; [exact H2|]]. intros Hneg.
  destruct (reach_timer_inv _ s Hr) as [[Ht Hl] | (iv & Ht & Hl)]; [auto|].
  exfalso. assert (0 <= timerSeconds s) by (apply H2; congruence). lia.
Qed.

(* ------------------------------------------------------------------ *)
(** ** What one tick does to the display *)

Lemma find_el_modify (i : nat) (f : Element -> Element) (l : list Element) :
  (forall e, eid (f e) = eid e) ->
  find_el i (modify_el i f l) = option_map f (find_el i l).
Proof.
  intros Hf. unfold find_el, modify_el. induction l as [|a l IH]; simpl; [reflexivity|].
  destruct (Nat.eqb (eid a) i) eqn:E; simpl; rewrite ?Hf, E; [reflexivity | exact IH].
Qed.

Ltac find_el_simpl :=
  repeat (rewrite find_el_modify; [|intros; reflexivity]).

Ltac bool_to_Z :=
  repeat match goal with
  | H : (_ <=? _) = true |- _ => apply Z.leb_le in H
  | H : (_ <=? _) = false |- _ => apply Z.leb_gt in H
  | H : (_ =? _) = true |- _ => apply Z.eqb_eq in H
  | H : (_ =? _) = false |- _ => apply Z.eqb_neq in H
  end.

Lemma tick_display (iv : Interval) (s : St) (e : Element) :
  find_el (iv_display iv) (dom s) = Some e ->
  let d := iv_display iv in
  let r := timerSeconds s - 1 in
  textTrace (tick iv s)
    = (textTrace s ++ [(d, timerText r)] ++ (if r <=? 0 then [(d, "TIME'S UP!")] else []))%list
  /\ option_map text (find_el d (dom (tick iv s)))
     = Some (if r <=? 0 then "TIME'S UP!" else timerText r)
  /\ option_map color (find_el d (dom (tick iv s)))
     = Some (if r <=? 10 then "#ef4444" else if r =? 30 then "#f59e0b" else color e)
  /\ option_map animation (find_el d (dom (tick iv s)))
     = Some (if r <=? 0 then "pulse 0.5s infinite" else animation e)
  /\ completions (tick iv s) = (completions s + (if (r <=? 0)%Z && iv_cb iv then 1 else 0))%nat.
Proof.
  intros He d r. subst d r. unfold tick, expire, updateTimerDisplay. simpl.
  destruct (timerInterval s) as [h|]; simpl;
    repeat (match goal with |- context [if ?b then _ else _] => destruct b eqn:? end; simpl);
    unfold setColor, setAnimation, setText; simpl; find_el_simpl; rewrite He; simpl;
    rewrite <- ?app_assoc; simpl in * |-; bool_to_Z; repeat split; try reflexivity; try lia.
Qed.

Lemma fire_single (iv : Interval) (s : St) : live s = [iv] -> fire (iv_id iv) s = tick iv s.
Proof. intros Hl. unfold fire. rewrite Hl. simpl. rewrite Nat.eqb_refl. reflexivity. Qed.

Lemma fire_n_last (h k : nat) (s : St) : fire_n h (S k) s = fire h (fire_n h k s).
Proof. revert s. induction k as [|k IH]; intros s; [reflexivity|]. exact (IH (fire h s)). Qed.

Lemma fire_idle (h : nat) (s : St) : live s = [] -> fire h s = s.
Proof. intros Hl. unfold fire. rewrite Hl. reflexivity. Qed.

(** While more than [k] seconds remain, [k] firings only count down. *)
Lemma fire_n_running (iv : Interval) (k : nat) (s : St) :
  live s = [iv] -> timerInterval s = Some (iv_id iv) -> Z.of_nat k < timerSeconds s ->
  (exists e, find_el (iv_display iv) (dom s) = Some e) ->
  live (fire_n (iv_id iv) k s) = [iv]
  /\ timerInterval (fire_n (iv_id iv) k s) = Some (iv_id iv)
  /\ timerSeconds (fire_n (iv_id iv) k s) = timerSeconds s - Z.of_nat k
  /\ completions (fire_n (iv_id iv) k s) = completions s
  /\ exists e, find_el (iv_display iv) (dom (fire_n (iv_id iv) k s)) = Some e.
Proof.
  revert s. induction k as [|k IH]; intros s Hl Ht Hk [e He].
  - simpl. repeat split; eauto; lia.
  - cbn [fire_n]. rewrite (fire_single iv s Hl).
    pose proof (tick_tf iv s) as T. unfold tf in T.
    destruct (tick_display iv s e He) as (_ & Htx & _ & _ & Hc).
    destruct (Z.leb_spec (timerSeconds s - 1) 0) as [Hle|Hgt]; [lia|].
    injection T as T0 T1 T2.
    destruct (IH (tick iv s)) as (L & I & S & C & E); [congruence | congruence | lia | |].
    { destruct (find_el (iv_display iv) (dom (tick iv s))); [eauto | discriminate]. }
    rewrite L, I, S, C, T0. simpl in Hc. rewrite Hc. repeat split; [lia | lia | exact E].
Qed.

Lemma find_el_of_getElementById (id : string) (d : Element) (l : list Element) :
  getElementById id l = Some d -> exists e, find_el (eid d) l = Some e.
Proof.
  unfold getElementById, find_el. induction l as [|a l IH]; simpl; [discriminate|].
  case_bool_decide; [intros [= ->]; rewrite Nat.eqb_refl; eauto|].
  intros Hg. destruct (Nat.eqb (eid a) (eid d)); eauto.
Qed.

(** C3: a timer started with [n > 0] seconds counts down for [n - 1]
    firings without completing; the [n]-th firing writes "0:00", then
    "TIME'S UP!" with the pulse animation, runs the callback once, and
    removes the interval, so nothing fires afterwards. *)
Theorem timer_expires_after_n_ticks (ok : Op -> Prop) (s : St) (displayId : string)
    (d : Element) (n : nat) (cb : bool) :
  reach ok s -> getElementById displayId (dom s) = Some d -> (0 < n)%nat ->
  let h := nextHandle s in
  let s0 := startTimer displayId (Z.of_nat n) cb s in
  let s' := fire_n h n s0 in
  (forall k, (k < n)%nat ->
     timerSeconds (fire_n h k s0) = Z.of_nat (n - k)
     /\ completions (fire_n h k s0) = completions s)
  /\ timerSeconds s' = 0
  /\ timerInterval s' = None /\ live s' = []
  /\ (forall h', fire h' s' = s')
  /\ option_map text (find_el (eid d) (dom s')) = Some "TIME'S UP!"
  /\ option_map animation (find_el (eid d) (dom s')) = Some "pulse 0.5s infinite"
  /\ completions s' = (completions s + (if cb then 1 else 0))%nat
  /\ exists pre, textTrace s' = (pre ++ [(eid d, "0:00"); (eid d, "TIME'S UP!")])%list.
Proof.
  intros Hr Hd Hn h s0 s'.
  set (iv := mkIv h (eid d) cb).
  assert (live s0 = [iv] /\ timerInterval s0 = Some h /\ timerSeconds s0 = Z.of_nat n
          /\ completions s0 = completions s
          /\ exists e, find_el (eid d) (dom s0) = Some e) as (L0 & I0 & S0 & C0 & E0).
  { subst s0. unfold startTimer. rewrite Hd.
    destruct (find_el_of_getElementById _ _ _ Hd) as [e He].
    destruct (reach_timer_inv ok s Hr) as [[Ht Hl] | (iv' & Ht & Hl)]; rewrite Ht; simpl.
    - rewrite Hl. unfold setText. simpl. find_el_simpl. rewrite He.
      repeat split; try reflexivity; simpl; eauto.
    - pose proof (clearInterval_only iv' s Hl) as C. unfold clearInterval in C.
      simpl in C. rewrite C. unfold setText. simpl. find_el_simpl. rewrite He.
      repeat split; try reflexivity; simpl; eauto. }
  destruct n as [|m]; [lia|].
  destruct (fire_n_running iv m s0 L0 I0 ltac:(lia) E0) as (Lm & Im & Sm & Cm0 & [e E]).
  change (iv_id iv) with h in Lm, Im, Sm, Cm0, E.
  split.
  { intros k Hk.
    destruct (fire_n_running iv k s0 L0 I0 ltac:(lia) E0) as (_ & _ & Sk & Ck & _).
    change (iv_id iv) with h in Sk, Ck. rewrite Sk, Ck, S0, C0. split; [lia | reflexivity]. }
  subst s'. rewrite fire_n_last.
  replace (fire h (fire_n h m s0)) with (tick iv (fire_n h m s0))
    by (symmetry; exact (fire_single iv _ Lm)).
  pose proof (tick_tf iv (fire_n h m s0)) as T. unfold tf in T.
  destruct (tick_display iv _ e E) as (Tr & Tx & _ & An & Cm).
  rewrite Sm in T, Tr, Tx, An, Cm. rewrite S0 in T, Tr, Tx, An, Cm.
  replace (Z.of_nat (S m) - Z.of_nat m - 1) with 0 in T, Tr, Tx, An, Cm by lia.
  simpl in T, Tr, Tx, An, Cm. rewrite Im in T. injection T as T0 T1 T2.
  assert (live (tick iv (fire_n h m s0)) = []) as Lnil.
  { rewrite T2. pose proof (clearInterval_only iv _ Lm) as Cl. exact Cl. }
  repeat split; try assumption.
  - intros h'. apply fire_idle. exact Lnil.
  - rewrite Cm, Cm0, C0. destruct cb; simpl; lia.
  - exists (textTrace (fire_n h m s0)). rewrite Tr. reflexivity.
Qed.

(* ------------------------------------------------------------------ *)
(** ** Timer rendering and colours *)


Lemma two_digits (v : Z) :
  0 <= v < 60 ->
  padStart (Z_to_string v) 2 = String (digit (v / 10)) (String (digit (v mod 10)) "").
Proof.
  intros Hv. replace v with (Z.of_nat (Z.to_nat v)) by lia.
  assert (Z.to_nat v < 60)%nat as Hk by lia. revert Hk. generalize (Z.to_nat v) as k.
  intros k Hk. do 60 (destruct k as [|k]; [reflexivity|]). lia.
Qed.

Lemma timerText_mss (t : Z) : 0 <= t -> timerText t = mss t.
Proof.
  intros Ht. unfold timerText, mss. rewrite Z.rem_mod_nonneg by lia.
  rewrite two_digits by (pose proof (Z.mod_pos_bound t 60); lia). reflexivity.
Qed.

(** C4 (counterexample): a timer started at 0 renders "-1:-1" on its
    tick before "TIME'S UP!". *)
Lemma timer_zero_renders_minus_one :
  let s := run_ops [OCall (IStartTimer "timer" 0 true); OFire 1%nat] (initSt page) in
  textTrace s = [(1%nat, "0:00"); (1%nat, "-1:-1"); (1%nat, "TIME'S UP!")].
Proof. vm_compute. reflexivity. Qed.

(** C4 (amended): a firing of the live interval [h] decrements the
    seconds; from at least one second it renders the new value as M:SS
    with two-digit seconds (shown until the next tick when above 0); the
    colour then becomes the danger tone at or below 10, the warning tone
    at exactly 30, and is otherwise left as it was (so the warning tone
    stays through 29..11 and a repeated danger write changes nothing). *)
Theorem tick_render_and_colors (s : St) (h : nat) (iv : Interval) (e : Element) :
  find (fun iv => Nat.eqb (iv_id iv) h) (live s) = Some iv ->
  find_el (iv_display iv) (dom s) = Some e ->
  let d := iv_display iv in
  let r := timerSeconds s - 1 in
  let s' := fire h s in
  timerSeconds s' = r
  /\ (0 <= r -> exists rest, textTrace s' = (textTrace s ++ (d, mss r) :: rest)%list)
  /\ (0 < r -> option_map text (find_el d (dom s')) = Some (mss r))
  /\ option_map color (find_el d (dom s'))
     = Some (if r <=? 10 then "#ef4444" else if r =? 30 then "#f59e0b" else color e).
Proof.
  intros Hf He d r s'.
  assert (s' = tick iv s) as Hs by (subst s'; unfold fire; rewrite Hf; reflexivity).
  rewrite Hs. pose proof (tick_tf iv s) as T. unfold tf in T.
  destruct (tick_display iv s e He) as (Tr & Tx & Co & _ & _).
  fold d r in Tr, Tx, Co.
  split; [destruct (timerSeconds s - 1 <=? 0); injection T as T0 _ _; exact T0|].
  split; [|split].
  - intros Hr. rewrite Tr, <- timerText_mss by exact Hr. eexists. reflexivity.
  - intros Hr. rewrite Tx. rewrite (proj2 (Z.leb_gt r 0) Hr), timerText_mss by lia.
    reflexivity.
  - exact Co.
Qed.

(* ------------------------------------------------------------------ *)
(** ** Class lists and page-wide removal *)

Lemma cl_remove_idem (c : string) (cs : list string) :
  cl_remove c (cl_remove c cs) = cl_remove c cs.
Proof.
  unfold cl_remove. induction cs as [|x cs IH]; [reflexivity|].
  rewrite !filter_cons. case_decide; [rewrite filter_cons; case_decide; [|done]|]; by rewrite IH.
Qed.

Ltac solve_cl :=
  repeat case_bool_decide; simpl; try reflexivity; exfalso;
  rewrite ?elem_of_cons, ?list_elem_of_filter, ?elem_of_app, ?list_elem_of_singleton in *;
  naive_solver.

Lemma cl_contains_spec (c : string) (cs : list string) :
  cl_contains c cs = bool_decide (c ∈ cs).
Proof.
  unfold cl_contains. induction cs as [|x cs IH]; simpl.
  - reflexivity || (symmetry; apply bool_decide_eq_false; apply not_elem_of_nil).
  - rewrite IH. solve_cl.
Qed.

Lemma cl_contains_remove (c c' : string) (cs : list string) :
  cl_contains c' (cl_remove c cs) = if bool_decide (c' = c) then false else cl_contains c' cs.
Proof. unfold cl_remove. rewrite !cl_contains_spec. solve_cl. Qed.

Lemma cl_contains_add (c c' : string) (cs : list string) :
  cl_contains c' (cl_add c cs) = if bool_decide (c' = c) then true else cl_contains c' cs.
Proof.
  unfold cl_add. destruct (cl_contains c cs) eqn:E.
  - case_bool_decide; subst; [exact E | reflexivity].
  - rewrite !cl_contains_spec in *. solve_cl.
Qed.

Lemma lookup_map_el {A B} (f : A -> B) (l : list A) (i : nat) :
  map f l !! i = option_map f (l !! i).
Proof. revert i. induction l as [|a l IH]; intros [|i]; simpl; auto. Qed.

Lemma getElementById_map (id : string) (f : Element -> Element) (l : list Element) :
  (forall e, el_id (f e) = el_id e) ->
  getElementById id (map f l) = option_map f (getElementById id l).
Proof.
  intros Hf. unfold getElementById. induction l as [|a l IH]; simpl; [reflexivity|].
  rewrite Hf. case_bool_decide; [reflexivity | exact IH].
Qed.


Lemma forEach_classRemove_dom (c : string) (els : list Element) (s : St) :
  dom (forEach (classRemove c) els s) = map (removed_from c els) (dom s).
Proof.
  unfold forEach. revert s. induction els as [|a els IH]; intros s; simpl.
  - unfold removed_from. simpl. induction (dom s) as [|x l IHl]; simpl; congruence.
  - rewrite IH. simpl. unfold modify_el. rewrite map_map. apply map_ext. intros e.
    unfold removed_from. simpl.
    destruct (Nat.eqb (eid e) (eid a)); simpl;
      destruct (existsb (Nat.eqb (eid e)) (map eid els)); simpl;
      rewrite ?cl_remove_idem; reflexivity.
Qed.

Lemma clearCurrentItems_dom (s : St) :
  dom (clearCurrentItems s)
  = map (removed_from "current" (querySelectorAll ["progress-item"; "current"] (dom s))) (dom s).
Proof. apply forEach_classRemove_dom. Qed.

Lemma stopTimer_dom (s : St) : dom (stopTimer s) = dom s.
Proof. unfold stopTimer. destruct (timerInterval s); reflexivity. Qed.

Lemma getElementById_clearCurrentItems (id : string) (s : St) :
  getElementById id (dom (clearCurrentItems s))
  = option_map (removed_from "current" (querySelectorAll ["progress-item"; "current"] (dom s)))
      (getElementById id (dom s)).
Proof.
  rewrite clearCurrentItems_dom. apply getElementById_map.
  intros e. unfold removed_from. destruct (existsb _ _); reflexivity.
Qed.

Lemma clearCurrentItems_fields (s : St) :
  timerInterval (clearCurrentItems s) = timerInterval s
  /\ live (clearCurrentItems s) = live s
  /\ timerSeconds (clearCurrentItems s) = timerSeconds s
  /\ scores (clearCurrentItems s) = scores s
  /\ merkleAnimationStep (clearCurrentItems s) = merkleAnimationStep s
  /\ completions (clearCurrentItems s) = completions s
  /\ textTrace (clearCurrentItems s) = textTrace s
  /\ consoleLog (clearCurrentItems s) = consoleLog s.
Proof. unfold clearCurrentItems. repeat split; apply forEach_proj; reflexivity. Qed.

(* ------------------------------------------------------------------ *)
(** ** Missing target elements *)

(** C6 (counterexample): [resetTimer] with an identifier that resolves
    to nothing still stops the running timer. *)
Lemma resetTimer_missing_stops_timer :
  let s0 := startTimer "timer" 60 false (initSt page) in
  getElementById "missing" (dom s0) = None
  /\ timerInterval s0 = Some 1%nat
  /\ timerInterval (resetTimer "missing" 60 s0) = None
  /\ live (resetTimer "missing" 60 s0) = [].
Proof. vm_compute. repeat split. Qed.

(** C6 (amended): when the target identifier resolves to no element, the
    operation writes no log line and leaves the remaining seconds, the
    scores, the merkle step counter and the callback count alone; all
    but [setCurrent] leave the page alone and all but [resetTimer] leave
    the interval handle alone.  [resetTimer] still runs [stopTimer], and
    [setCurrent] still clears "current" from the [.progress-item.current]
    elements; every other operation leaves the state unchanged. *)
Theorem missing_target_effects (o : IdOp) (s : St) :
  getElementById (idop_target o) (dom s) = None ->
  consoleLog (run_idop o s) = consoleLog s
  /\ timerSeconds (run_idop o s) = timerSeconds s
  /\ scores (run_idop o s) = scores s
  /\ merkleAnimationStep (run_idop o s) = merkleAnimationStep s
  /\ completions (run_idop o s) = completions s
  /\ ((forall i, o <> ISetCurrent i) -> dom (run_idop o s) = dom s)
  /\ ((forall i n, o <> IResetTimer i n) ->
        timerInterval (run_idop o s) = timerInterval s /\ live (run_idop o s) = live s)
  /\ (forall i n, o = IResetTimer i n -> run_idop o s = stopTimer s)
  /\ (forall i, o = ISetCurrent i -> run_idop o s = clearCurrentItems s)
  /\ ((forall i n, o <> IResetTimer i n) -> (forall i, o <> ISetCurrent i) ->
        run_idop o s = s).
Proof.
  intros Hn.
  assert (run_idop o s = match o with
                         | IResetTimer _ _ => stopTimer s
                         | ISetCurrent _ => clearCurrentItems s
                         | _ => s
                         end) as Hrun.
  { destruct o; simpl in Hn; simpl;
      unfold startTimer, resetTimer, revealAnswer, hideAnswer, markComplete, setCurrent,
        highlightBug, clearBugHighlights, animateMerkleTree, resetMerkleAnimation;
      rewrite ?stopTimer_dom, ?getElementById_clearCurrentItems, Hn; reflexivity. }
  rewrite Hrun.
  destruct o; repeat split; intros;
    repeat match goal with
    | H : forall i, ISetCurrent ?x <> ISetCurrent i |- _ => destruct (H x); reflexivity
    | H : forall i n, IResetTimer ?x ?y <> IResetTimer i n |- _ => destruct (H x y); reflexivity
    | H : _ = _ |- _ => discriminate H
    end;
    try reflexivity;
    try (unfold stopTimer; destruct (timerInterval s); reflexivity);
    try apply clearCurrentItems_fields.
Qed.

(* ------------------------------------------------------------------ *)
(** ** Progress tracker *)

Lemma eid_inj (l : list Element) (x y : Element) :
  NoDup (map eid l) -> In x l -> In y l -> eid x = eid y -> x = y.
Proof.
  induction l as [|a l IH]; simpl; [tauto|]. intros Hnd Hx Hy E.
  inversion Hnd as [|? ? Hnin Hnd']; subst.
  destruct Hx as [<- | Hx], Hy as [<- | Hy]; auto.
  - exfalso. apply Hnin. rewrite E. apply list_elem_of_In. by apply in_map.
  - exfalso. apply Hnin. rewrite <- E. apply list_elem_of_In. by apply in_map.
Qed.

Lemma in_selected (cs : list string) (l : list Element) (x : Element) :
  NoDup (map eid l) -> In x l ->
  existsb (Nat.eqb (eid x)) (map eid (querySelectorAll cs l))
  = forallb (fun c => cl_contains c (classes x)) cs.
Proof.
  intros Hnd Hx. destruct (forallb _ cs) eqn:F.
  - apply existsb_exists. exists (eid x). rewrite Nat.eqb_refl. split; [|reflexivity].
    apply in_map. apply list_elem_of_In, list_elem_of_filter. split; [exact F|].
    by apply list_elem_of_In.
  - apply not_true_is_false. intros Hex.
    apply existsb_exists in Hex as (z & Hz & Ez). apply Nat.eqb_eq in Ez.
    apply in_map_iff in Hz as (q & <- & Hq).
    apply list_elem_of_In, list_elem_of_filter in Hq as [Fq Hq].
    apply list_elem_of_In in Hq.
    rewrite (eid_inj l x q Hnd Hx Hq Ez) in F. congruence.
Qed.

Lemma removed_from_classes (c c' : string) (els : list Element) (e : Element) :
  eid (removed_from c els e) = eid e /\ el_id (removed_from c els e) = el_id e
  /\ cl_contains c' (classes (removed_from c els e))
     = if existsb (Nat.eqb (eid e)) (map eid els)
       then (if bool_decide (c' = c) then false else cl_contains c' (classes e))
       else cl_contains c' (classes e).
Proof.
  unfold removed_from. destruct (existsb _ _); simpl; [|auto].
  rewrite cl_contains_remove. auto.
Qed.

(** C9 (counterexample): an element marked "current" that is not a
    [.progress-item] keeps the mark when another item becomes current. *)
Lemma setCurrent_keeps_other_current :
  let pg := [el0 1%nat (Some "note") ["current"] []; el0 2%nat (Some "item") ["progress-item"] []] in
  let s := setCurrent "item" (initSt pg) in
  option_map classes (find_el 1%nat (dom s)) = Some ["current"]
  /\ option_map classes (find_el 2%nat (dom s)) = Some ["progress-item"; "current"].
Proof. vm_compute. split; reflexivity. Qed.

(** C9 (amended): on a page whose elements are distinct objects,
    [setCurrent(id)] keeps every element in place and every class other
    than "current"; an element carries "current" afterwards iff it had
    it and is not a [.progress-item] (those are all cleared), or it is
    the element [id] resolves to and that element is not "completed". *)
Theorem setCurrent_classes (itemId : string) (s : St) (i : nat) (x : Element) :
  NoDup (map eid (dom s)) -> dom s !! i = Some x ->
  exists x', dom (setCurrent itemId s) !! i = Some x'
    /\ eid x' = eid x /\ el_id x' = el_id x
    /\ (forall c, c <> "current" -> cl_contains c (classes x') = cl_contains c (classes x))
    /\ cl_contains "current" (classes x')
       = (cl_contains "current" (classes x) && negb (cl_contains "progress-item" (classes x)))
         || match getElementById itemId (dom s) with
            | Some y => Nat.eqb (eid y) (eid x) && negb (cl_contains "completed" (classes y))
            | None => false
            end.
Proof.
  intros Hnd Hx.
  assert (In x (dom s)) as Hin by (apply list_elem_of_In; by eapply list_elem_of_lookup_2).
  set (Q := querySelectorAll ["progress-item"; "current"] (dom s)).
  set (g := removed_from "current" Q).
  assert (existsb (Nat.eqb (eid x)) (map eid Q)
          = cl_contains "progress-item" (classes x) && cl_contains "current" (classes x)) as HQ.
  { subst Q. rewrite (in_selected _ _ x Hnd Hin). simpl. by rewrite andb_true_r. }
  assert (dom (clearCurrentItems s) !! i = Some (g x)) as Hs1.
  { rewrite clearCurrentItems_dom, lookup_map_el, Hx. reflexivity. }
  assert (forall c, cl_contains c (classes (g x))
                    = if bool_decide (c = "current")
                      then cl_contains c (classes x) && negb (cl_contains "progress-item" (classes x))
                      else cl_contains c (classes x)) as Hg.
  { intros c. subst g. rewrite (proj2 (proj2 (removed_from_classes _ c Q x))), HQ.
    case_bool_decide; subst; destruct (cl_contains "progress-item" _), (cl_contains "current" _);
      reflexivity. }
  pose proof (removed_from_classes "current" "current" Q x) as (Eg & Ig & _). fold g in Eg, Ig.
  unfold setCurrent. rewrite getElementById_clearCurrentItems. fold Q g.
  destruct (getElementById itemId (dom s)) as [y|] eqn:Ey; simpl.
  - pose proof (removed_from_classes "current" "completed" Q y) as (Egy & _ & Cy).
    fold g in Egy, Cy. rewrite Cy. simpl.
    replace (if existsb (Nat.eqb (eid y)) (map eid Q) then cl_contains "completed" (classes y)
             else cl_contains "completed" (classes y))
      with (cl_contains "completed" (classes y))
      by (destruct (existsb (Nat.eqb (eid y)) (map eid Q)); reflexivity).
    destruct (cl_contains "completed" (classes y)) eqn:Ecy; simpl.
    { exists (g x). repeat split; [exact Hs1 | exact Eg | exact Ig | |].
      - intros c Hc. rewrite Hg, bool_decide_eq_false_2 by exact Hc. reflexivity.
      - rewrite Hg. rewrite bool_decide_eq_true_2 by reflexivity.
        rewrite andb_false_r, orb_false_r. reflexivity. }
    assert (Hmod : forall l, modify_el (eid (g y)) (fun e => el_set_classes (cl_add "current" (classes e)) e) l !! i
                   = option_map (fun e => if Nat.eqb (eid e) (eid (g y))
                                          then el_set_classes (cl_add "current" (classes e)) e else e)
                                (l !! i)).
    { intros l. unfold modify_el. apply lookup_map_el. }
    unfold classAdd. simpl. rewrite Hmod, Hs1. simpl. rewrite Eg, Egy.
    destruct (Nat.eqb (eid x) (eid y)) eqn:Exy.
    + eexists. repeat split; simpl; [exact Eg | exact Ig | |].
      * intros c Hc. rewrite cl_contains_add, Hg, !bool_decide_eq_false_2 by exact Hc. reflexivity.
      * rewrite cl_contains_add, bool_decide_eq_true_2 by reflexivity.
        rewrite Nat.eqb_sym, Exy. simpl. by rewrite orb_true_r.
    + exists (g x). repeat split; [exact Eg | exact Ig | |].
      * intros c Hc. rewrite Hg, bool_decide_eq_false_2 by exact Hc. reflexivity.
      * rewrite Hg, bool_decide_eq_true_2 by reflexivity.
        rewrite Nat.eqb_sym, Exy. simpl. by rewrite orb_false_r.
  - exists (g x). repeat split; [exact Hs1 | exact Eg | exact Ig | |].
    + intros c Hc. rewrite Hg, bool_decide_eq_false_2 by exact Hc. reflexivity.
    + rewrite Hg, bool_decide_eq_true_2 by reflexivity. by rewrite orb_false_r.
Qed.

(* ------------------------------------------------------------------ *)
(** ** Instances on the sample page *)

Lemma score_ops_known_teams_witness :
  reach (fun _ => True) (initSt page)
  /\ scores (updateScore "referee" 100 (initSt page)) = scores (initSt page).
Proof.
  assert (Hr : reach (fun _ => True) (initSt page)) by apply reach_init.
  split; [exact Hr|].
  exact (proj1 (proj1 (proj2 (score_ops_known_teams _ _ "referee" 100 Hr))
           ltac:(discriminate) ltac:(discriminate))).
Defined.

Lemma at_most_one_live_timer_witness :
  let s := run_op (OCall (IStartTimer "timer" 5 true)) (initSt page) in
  reach (fun _ => True) s /\ (length (live s) <= 1)%nat.
Proof.
  intros s.
  assert (Hr : reach (fun _ => True) s) by (apply reach_step; [exact I | apply reach_init]).
  split; [exact Hr|]. exact (proj1 (at_most_one_live_timer _ s Hr)).
Defined.

Lemma timer_expires_after_n_ticks_witness :
  reach (fun _ => True) (initSt page)
  /\ getElementById "timer" (dom (initSt page)) = Some (el0 1%nat (Some "timer") [] [])
  /\ (0 < 5)%nat
  /\ timerSeconds (fire_n 1%nat 5%nat (startTimer "timer" (Z.of_nat 5) true (initSt page))) = 0.
Proof.
  assert (Hr : reach (fun _ => True) (initSt page)) by apply reach_init.
  assert (Hd : getElementById "timer" (dom (initSt page)) = Some (el0 1%nat (Some "timer") [] []))
    by reflexivity.
  split; [exact Hr | split; [exact Hd | split; [lia|]]].
  exact (proj1 (proj2 (timer_expires_after_n_ticks _ _ _ _ 5%nat true Hr Hd ltac:(lia)))).
Defined.

Lemma tick_render_and_colors_witness :
  let s := startTimer "timer" 31 true (initSt page) in
  find (fun iv => Nat.eqb (iv_id iv) 1%nat) (live s) = Some (mkIv 1%nat 1%nat true)
  /\ find_el 1%nat (dom s) = Some (mkEl 1%nat (Some "timer") [] "0:31" "" "" [])
  /\ option_map color (find_el 1%nat (dom (fire 1%nat s))) = Some "#f59e0b".
Proof.
  intros s.
  assert (Hf : find (fun iv => Nat.eqb (iv_id iv) 1%nat) (live s) = Some (mkIv 1%nat 1%nat true))
    by (vm_compute; reflexivity).
  assert (He : find_el 1%nat (dom s) = Some (mkEl 1%nat (Some "timer") [] "0:31" "" "" []))
    by (vm_compute; reflexivity).
  split; [exact Hf | split; [exact He|]].
  exact (proj2 (proj2 (proj2 (tick_render_and_colors s 1%nat _ _ Hf He)))).
Defined.

Lemma timer_seconds_lower_bound_witness :
  let s := run_op (OFire 1%nat) (run_op (OCall (IStartTimer "timer" 0 false)) (initSt page)) in
  reach nonneg_args s /\ -1 <= timerSeconds s.
Proof.
  intros s.
  assert (Hr : reach nonneg_args s)
    by (apply reach_step; [exact I | apply reach_step; [simpl; lia | apply reach_init]]).
  split; [exact Hr|]. exact (proj1 (timer_seconds_lower_bound s Hr)).
Defined.

Lemma missing_target_effects_witness :
  let s0 := startTimer "timer" 60 false (initSt page) in
  getElementById "missing" (dom s0) = None
  /\ run_idop (IResetTimer "missing" 60) s0 = stopTimer s0.
Proof.
  intros s0.
  assert (Hn : getElementById (idop_target (IResetTimer "missing" 60)) (dom s0) = None)
    by (vm_compute; reflexivity).
  split; [exact Hn|].
  destruct (missing_target_effects _ s0 Hn) as (_ & _ & _ & _ & _ & _ & _ & Hr & _ & _).
  exact (Hr "missing" 60 eq_refl).
Defined.

Lemma setCurrent_classes_witness :
  NoDup (map eid (dom (initSt page)))
  /\ dom (initSt page) !! 4%nat = Some (el0 5%nat (Some "step2") ["progress-item"; "current"] [])
  /\ exists x', dom (setCurrent "step1" (initSt page)) !! 4%nat = Some x'
                /\ cl_contains "current" (classes x') = false.
Proof.
  assert (Hnd : NoDup (map eid (dom (initSt page))))
    by (apply (bool_decide_unpack _); vm_compute; reflexivity).
  assert (Hx : dom (initSt page) !! 4%nat
               = Some (el0 5%nat (Some "step2") ["progress-item"; "current"] []))
    by reflexivity.
  split; [exact Hnd | split; [exact Hx|]].
  destruct (setCurrent_classes "step1" _ _ _ Hnd Hx) as (x' & Hl & _ & _ & _ & Hc).
  exists x'. split; [exact Hl|]. rewrite Hc. vm_compute. reflexivity.
Defined.

(* ------------------------------------------------------------------ *)
(** ** Number formatting, parsing and the score animation *)

Lemma str_app_String (x : ascii) (a b : string) : String x a +:+ b = String x (a +:+ b).
Proof. reflexivity. Qed.
Lemma str_app_empty (b : string) : "" +:+ b = b.
Proof. reflexivity. Qed.

Lemma str_app_assoc (a b c : string) : (a +:+ b) +:+ c = a +:+ (b +:+ c).
Proof. induction a as [|x a IH]; rewrite ?str_app_String, ?str_app_empty; simpl; rewrite ?str_app_String, ?str_app_empty; congruence. Qed.

Lemma lstr_app (a b : string) :
  String.list_ascii_of_string (a +:+ b) = (String.list_ascii_of_string a ++ String.list_ascii_of_string b)%list.
Proof. induction a as [|x a IH]; rewrite ?str_app_String, ?str_app_empty; simpl; rewrite ?str_app_String, ?str_app_empty; congruence. Qed.

Lemma sola_app (a b : list ascii) :
  String.string_of_list_ascii (a ++ b)%list = String.string_of_list_ascii a +:+ String.string_of_list_ascii b.
Proof. induction a as [|x a IH]; rewrite ?str_app_String, ?str_app_empty; simpl; rewrite ?str_app_String, ?str_app_empty; congruence. Qed.

Lemma N_digits_acc (f : nat) (n : N) (acc : string) : N_digits f n acc = N_digits f n "" +:+ acc.
Proof.
  revert n acc. induction f as [|f IH]; intros n acc; simpl; [reflexivity|].
  destruct (n <? 10)%N; [reflexivity|].
  rewrite IH, (IH _ (String _ "")), str_app_assoc. reflexivity.
Qed.

Lemma N_digits_fuel_le (f g : nat) (n : N) (acc : string) :
  (n < 10 ^ N.of_nat f)%N -> (f <= g)%nat -> N_digits (S g) n acc = N_digits (S f) n acc.
Proof.
  revert g n acc. induction f as [|f IH]; intros g n acc Hn Hfg.
  - simpl in Hn. assert (n = 0%N) as -> by lia. destruct g; reflexivity.
  - destruct g as [|g]; [lia|]. cbn [N_digits]. destruct (n <? 10)%N eqn:E; [reflexivity|].
    apply IH; [|lia]. rewrite Nat2N.inj_succ, N.pow_succ_r' in Hn.
    apply N.Div0.div_lt_upper_bound. exact Hn.
Qed.

Lemma N_digits_fuel (f g : nat) (n : N) (acc : string) :
  (n < 10 ^ N.of_nat f)%N -> (n < 10 ^ N.of_nat g)%N -> N_digits (S g) n acc = N_digits (S f) n acc.
Proof.
  intros Hf Hg. destruct (Nat.le_ge_cases f g).
  - by apply N_digits_fuel_le.
  - symmetry. by apply N_digits_fuel_le.
Qed.

Lemma pos_size_bound (p : positive) : (Npos p < 2 ^ N.of_nat (Pos.size_nat p))%N.
Proof. induction p; simpl Pos.size_nat; rewrite ?Nat2N.inj_succ, ?N.pow_succ_r'; simpl; lia. Qed.

Lemma N_size_bound (n : N) : (n < 10 ^ N.of_nat (N.size_nat n))%N.
Proof.
  destruct n as [|p]; [reflexivity|]. simpl N.size_nat.
  eapply N.lt_le_trans; [apply pos_size_bound|]. apply N.pow_le_mono_l. lia.
Qed.

Lemma N_to_string_small (n : N) : (n < 10)%N -> N_to_string n = String (ascii_of_N (48 + n)) "".
Proof.
  intros H. unfold N_to_string. cbn [N_digits]. rewrite (N.mod_small n 10) by exact H.
  apply N.ltb_lt in H. rewrite H. reflexivity.
Qed.

Lemma N_digits_S (f : nat) (n : N) (acc : string) :
  N_digits (S f) n acc
  = let acc' := String (ascii_of_N (48 + n mod 10)) acc in
    if (n <? 10)%N then acc' else N_digits f (n / 10) acc'.
Proof. reflexivity. Qed.

Lemma N_to_string_step (n : N) :
  (10 <= n)%N -> N_to_string n = N_to_string (n / 10) +:+ String (ascii_of_N (48 + n mod 10)) "".
Proof.
  intros H. pose proof (N_size_bound n) as Hb. unfold N_to_string at 1.
  rewrite N_digits_S. cbv zeta. replace (n <? 10)%N with false by (symmetry; apply N.ltb_ge; lia).
  rewrite N_digits_acc. f_equal. unfold N_to_string.
  destruct (N.size_nat n) as [|sz]; [simpl in Hb; lia|].
  apply N_digits_fuel; [apply N_size_bound|].
  rewrite Nat2N.inj_succ, N.pow_succ_r' in Hb. apply N.Div0.div_lt_upper_bound. exact Hb.
Qed.

Lemma ascii_digit_is_digit (r : N) : (r < 10)%N -> is_digit (ascii_of_N (48 + r)) = true.
Proof.
  intros H.
  assert (r = 0 \/ r = 1 \/ r = 2 \/ r = 3 \/ r = 4 \/ r = 5 \/ r = 6 \/ r = 7 \/ r = 8 \/ r = 9)%N
    as Hr by lia.
  repeat destruct Hr as [-> | Hr]; try reflexivity; subst; reflexivity.
Qed.

Lemma N_to_string_digits (n : N) :
  Forall (fun c => is_digit c = true) (String.list_ascii_of_string (N_to_string n))
  /\ String.list_ascii_of_string (N_to_string n) <> [].
Proof.
  induction n as [n IH] using (well_founded_induction N.lt_wf_0).
  destruct (N.lt_ge_cases n 10) as [Hs | Hs].
  - rewrite N_to_string_small by exact Hs. simpl. split; [|discriminate].
    constructor; [|constructor]. apply ascii_digit_is_digit. exact Hs.
  - rewrite N_to_string_step by exact Hs. rewrite lstr_app.
    destruct (IH (n / 10)%N) as [IH1 IH2]; [apply N.Div0.div_lt_upper_bound; lia|].
    split.
    + apply Forall_app. split; [exact IH1|]. simpl. constructor; [|constructor].
      apply ascii_digit_is_digit. apply N.mod_lt. discriminate.
    + intros E. apply app_eq_nil in E as [E _]. exact (IH2 E).
Qed.

Lemma digit_is_word (c : ascii) : is_digit c = true -> is_word c = true.
Proof. intros H. unfold is_word. rewrite H. reflexivity. Qed.

Lemma digit_groups_nondigit (c : ascii) (l : list ascii) :
  is_digit c = false -> digit_groups (c :: l) = false.
Proof. intros H. destruct l as [|x [|y l]]; simpl; rewrite ?H; reflexivity. Qed.


Lemma insert_commas_nil (p : option ascii) : insert_commas p [] = [].
Proof. simpl. rewrite andb_false_r. reflexivity. Qed.







Lemma Z_to_string_nonneg (n : Z) : 0 <= n -> Z_to_string n = N_to_string (Z.to_N n).
Proof. intros H. unfold Z_to_string. replace (n <? 0) with false by (symmetry; apply Z.ltb_ge; lia). reflexivity. Qed.

Lemma Z_to_string_neg (n : Z) : n < 0 -> Z_to_string n = String "-" (N_to_string (Z.to_N (- n))).
Proof. intros H. unfold Z_to_string. replace (n <? 0) with true by (symmetry; apply Z.ltb_lt; lia). reflexivity. Qed.

Lemma sola_lstr (s : string) : String.string_of_list_ascii (String.list_ascii_of_string s) = s.
Proof. apply String.string_of_list_ascii_of_string. Qed.



Lemma insert_commas_strip (p : option ascii) (l : list ascii) :
  filter (fun c => c <> ","%char) (insert_commas p l) = filter (fun c => c <> ","%char) l.
Proof.
  revert p. induction l as [|c l IH]; intros p.
  - rewrite insert_commas_nil. reflexivity.
  - cbn [insert_commas]. rewrite filter_app, !filter_cons, IH.
    destruct (_ && _); [rewrite filter_cons_False by (intros H; apply H; reflexivity)|];
      reflexivity.
Qed.

Lemma filter_all_comma (l : list ascii) :
  Forall (fun c => c <> ","%char) l -> filter (fun c => c <> ","%char) l = l.
Proof.
  induction l as [|c l IH]; intros H; [reflexivity|]. inversion H; subst.
  rewrite filter_cons. case_decide; [|contradiction]. by rewrite IH.
Qed.

Lemma digit_not_comma (c : ascii) : is_digit c = true -> c <> ","%char.
Proof. intros H ->. discriminate. Qed.

Lemma Z_to_string_no_comma (n : Z) :
  Forall (fun c => c <> ","%char) (String.list_ascii_of_string (Z_to_string n)).
Proof.
  unfold Z_to_string. destruct (n <? 0).
  - simpl. constructor; [discriminate|].
    eapply Forall_impl; [apply N_to_string_digits|]. apply digit_not_comma.
  - eapply Forall_impl; [apply N_to_string_digits|]. apply digit_not_comma.
Qed.

(** X2: removing the commas from [formatNumber n] gives back
    [n.toString()]: the regular expression only inserts commas. *)
Theorem formatNumber_strip_commas (n : Z) :
  Z.abs n < 10 ^ 21 ->
  String.string_of_list_ascii
    (filter (fun c => c <> ","%char) (String.list_ascii_of_string (formatNumber n)))
  = Z_to_string n.
Proof.
  intros _. unfold formatNumber, replaceThousands.
  rewrite String.list_ascii_of_string_of_list_ascii, insert_commas_strip,
    filter_all_comma by apply Z_to_string_no_comma.
  apply sola_lstr.
Qed.

Lemma digit_groups_app (D T : list ascii) (x : ascii) :
  Forall (fun c => is_digit c = true) D -> is_digit x = false ->
  digit_groups (D ++ x :: T)%list = digit_groups D.
Proof.
  intros HD Hx. remember (length D) as n eqn:En. revert D HD En.
  induction n as [n IH] using lt_wf_ind. intros D HD En.
  destruct D as [|a [|b [|c R]]].
  - simpl. apply digit_groups_nondigit. exact Hx.
  - destruct T as [|y T]; [reflexivity|]. simpl. rewrite Hx, andb_false_r. reflexivity.
  - simpl. rewrite Hx, andb_false_r. reflexivity.
  - rewrite !Forall_cons in HD. destruct HD as (Ha & Hb & Hc & HR).
    cbn [app digit_groups]. rewrite (IH (length R) ltac:(simpl in En; lia) R HR eq_refl).
    destruct R; [simpl; rewrite Hx; reflexivity | reflexivity].
Qed.

Lemma insert_commas_cons (p : option ascii) (c : ascii) (l : list ascii) :
  insert_commas p (c :: l)
  = ((if Bool.eqb (word_at p) (word_at (Some c)) && digit_groups (c :: l) then [","%char] else [])
     ++ c :: insert_commas (Some c) l)%list.
Proof. reflexivity. Qed.

Lemma insert_commas_split (p : option ascii) (A T : list ascii) (x : ascii) :
  Forall (fun c => is_digit c = true) A -> is_digit x = false ->
  insert_commas p (A ++ x :: T)%list
  = (insert_commas p A ++ insert_commas (fold_left (fun _ c => Some c) A p) (x :: T))%list.
Proof.
  revert p. induction A as [|a A IH]; intros p HA Hx.
  - rewrite insert_commas_nil. reflexivity.
  - inversion HA as [|? ? Ha HA']; subst.
    change ((a :: A) ++ x :: T)%list with (a :: (A ++ x :: T))%list.
    rewrite !insert_commas_cons, (IH (Some a) HA' Hx).
    assert (E : digit_groups (a :: (A ++ x :: T)) = digit_groups (a :: A))
      by exact (digit_groups_app (a :: A) T x HA Hx).
    rewrite E. simpl fold_left. rewrite <- app_assoc. reflexivity.
Qed.

Lemma fold_last_word (A : list ascii) (p : option ascii) :
  Forall (fun c => is_digit c = true) A -> A <> [] ->
  word_at (fold_left (fun _ c => Some c) A p) = true.
Proof.
  revert p. induction A as [|a A IH]; intros p HA Hne; [done|].
  inversion HA as [|? ? Ha HA']; subst. simpl.
  destruct A as [|b A]; [simpl; apply digit_is_word; exact Ha|].
  apply IH; [exact HA' | discriminate].
Qed.

Lemma all_digits_Forall (s : string) :
  all_digits s = true -> Forall (fun c => is_digit c = true) (String.list_ascii_of_string s).
Proof.
  unfold all_digits. induction (String.list_ascii_of_string s) as [|c l IH]; simpl; intros H;
    [constructor|]. apply andb_prop in H as [H1 H2]. constructor; auto.
Qed.

(** X3: on a decimal string "a.b" with non-empty digit runs [a] and [b],
    the thousands regular expression groups [a] and [b] separately, so
    the fraction digits get commas too ("1234.5678" becomes
    "1,234.5,678"). *)
Theorem replaceThousands_fraction (a b : string) :
  a <> "" -> b <> "" -> all_digits a = true -> all_digits b = true ->
  replaceThousands (a +:+ "." +:+ b) = replaceThousands a +:+ "." +:+ replaceThousands b.
Proof.
  intros Ha Hb Da Db. apply all_digits_Forall in Da, Db.
  unfold replaceThousands. rewrite !lstr_app. simpl String.list_ascii_of_string at 2.
  cbn [app].   rewrite insert_commas_split by (exact Da || reflexivity).
  rewrite sola_app. f_equal.
  destruct (String.list_ascii_of_string b) as [|d r] eqn:E; [destruct b; [done|discriminate]|].
  inversion Db as [|? ? Hd Hr]; subst.
  assert (word_at (fold_left (fun _ c => Some c) (String.list_ascii_of_string a) None) = true) as W.
  { apply fold_last_word; [exact Da|]. destruct a; [done|discriminate]. }
  destruct (fold_left _ _ _) as [l|]; [|discriminate].
  simpl in W. rewrite !insert_commas_cons. simpl word_at. rewrite W, (digit_is_word d Hd).
  rewrite digit_groups_nondigit by reflexivity. reflexivity.
Qed.

Lemma digit_range (c : ascii) : is_digit c = true -> (48 <= nat_of_ascii c <= 57)%nat.
Proof. unfold is_digit. intros H. apply andb_prop in H as [H1 H2]. apply Nat.leb_le in H1, H2. lia. Qed.

Lemma is_word_false_range (c : ascii) : is_word c = false ->
  ~ (48 <= nat_of_ascii c <= 57)%nat /\ ~ (65 <= nat_of_ascii c <= 90)%nat
  /\ ~ (97 <= nat_of_ascii c <= 122)%nat.
Proof.
  unfold is_word, is_digit. intros H. rewrite !orb_false_iff in H.
  destruct H as [[[H1 H2] H3] _]. rewrite !andb_false_iff, !Nat.leb_gt in H1, H2, H3. lia.
Qed.

Lemma digit_value_digit (c : ascii) : is_digit c = true ->
  digit_value c = Some (Z.of_nat (nat_of_ascii c) - 48).
Proof.
  intros H. apply digit_range in H. unfold digit_value.
  replace ((48 <=? Z.of_nat (nat_of_ascii c)) && (Z.of_nat (nat_of_ascii c) <=? 57)) with true
    by (symmetry; apply andb_true_intro; split; apply Z.leb_le; lia). reflexivity.
Qed.

Lemma digit_value_nonword (c : ascii) : is_word c = false -> digit_value c = None.
Proof.
  intros H. apply is_word_false_range in H as (H1 & H2 & H3). unfold digit_value.
  repeat match goal with
  | |- context [(?a <=? ?x) && (?x <=? ?b)] =>
      replace ((a <=? x) && (x <=? b)) with false
        by (symmetry; apply andb_false_iff; rewrite !Z.leb_gt; lia)
  end. reflexivity.
Qed.

Lemma digits_prefix_tail (acc : Z) (T : list ascii) :
  word_at (head T) = false -> digits_prefix 10 acc true T = Some acc.
Proof.
  intros H. destruct T as [|c T]; [reflexivity|]. simpl in H.
  simpl. rewrite digit_value_nonword by exact H. reflexivity.
Qed.

Lemma digits_prefix_digits (D T : list ascii) (acc : Z) :
  Forall (fun c => is_digit c = true) D -> word_at (head T) = false ->
  digits_prefix 10 acc true (D ++ T)%list = Some (dec_value acc D).
Proof.
  revert acc. induction D as [|d D IH]; intros acc HD HT; [apply digits_prefix_tail; exact HT|].
  inversion HD as [|? ? Hd HD']; subst. simpl.
  rewrite digit_value_digit by exact Hd.
  apply digit_range in Hd.
  replace (Z.of_nat (nat_of_ascii d) - 48 <? 10) with true by (symmetry; apply Z.ltb_lt; lia).
  apply IH; assumption.
Qed.

Lemma dec_value_N_to_string (m : N) : dec_value 0 (String.list_ascii_of_string (N_to_string m)) = Z.of_N m.
Proof.
  induction m as [m IH] using (well_founded_induction N.lt_wf_0).
  destruct (N.lt_ge_cases m 10) as [Hs | Hs].
  - rewrite N_to_string_small by exact Hs. unfold dec_value. simpl.
    unfold nat_of_ascii. rewrite N_ascii_embedding by lia. rewrite N_nat_Z. lia.
  - rewrite N_to_string_step, lstr_app by exact Hs. unfold dec_value. rewrite fold_left_app.
    fold (dec_value 0 (String.list_ascii_of_string (N_to_string (m / 10)))).
    rewrite IH by (apply N.Div0.div_lt_upper_bound; lia). simpl.
    unfold nat_of_ascii. rewrite N_ascii_embedding by (pose proof (N.mod_lt m 10); lia).
    rewrite N_nat_Z. rewrite N2Z.inj_add, N2Z.inj_mod, N2Z.inj_div. simpl.
    pose proof (Z.div_mod (Z.of_N m) 10). lia.
Qed.

Lemma is_digit_not_space (c : ascii) : is_digit c = true -> is_space c = false.
Proof.
  intros H. apply digit_range in H. unfold is_space. apply not_true_is_false. intros Hx.
  apply existsb_exists in Hx as (k & Hk & Ek). apply Nat.eqb_eq in Ek. simpl in Hk. lia.
Qed.

Lemma not_hex_marker (x : ascii) : is_digit x = true \/ is_word x = false ->
  (Ascii.eqb x "x" || Ascii.eqb x "X") = false.
Proof.
  intros H. destruct (Ascii.eqb_spec x "x") as [->|]; [destruct H; discriminate|].
  destruct (Ascii.eqb_spec x "X") as [->|]; [destruct H; discriminate|]. reflexivity.
Qed.

Lemma parse_tail (d : ascii) (r T : list ascii) (f : Z -> Z) :
  Forall (fun c => is_digit c = true) (d :: r) -> word_at (head T) = false ->
  (let '(radix, l2) :=
     match (r ++ T)%list with
     | [] => (10, d :: (r ++ T))%list
     | x :: r0 => if Ascii.eqb d "0" && (Ascii.eqb x "x" || Ascii.eqb x "X")
                  then (16, r0) else (10, d :: (r ++ T))%list
     end in
   option_map f (digits_prefix radix 0 false l2)) = Some (f (dec_value 0 (d :: r))).
Proof.
  intros Hd HT. inversion Hd as [|? ? Hd1 Hr]; subst.
  assert (digits_prefix 10 0 false (d :: r ++ T)%list = Some (dec_value 0 (d :: r))) as HP.
  { simpl. rewrite digit_value_digit by exact Hd1. apply digit_range in Hd1.
    replace (Z.of_nat (nat_of_ascii d) - 48 <? 10) with true by (symmetry; apply Z.ltb_lt; lia).
    apply digits_prefix_digits; assumption. }
  destruct (r ++ T)%list as [|x rest] eqn:ER.
  - cbn -[digits_prefix]. rewrite HP. reflexivity.
  - rewrite not_hex_marker, andb_false_r.
    + cbn -[digits_prefix]. rewrite HP. reflexivity.
    + destruct r as [|y r].
      * right. simpl in ER. subst T. exact HT.
      * left. simpl in ER. injection ER as -> _. inversion Hr; assumption.
Qed.

Lemma str_app_nil_r (a : string) : a +:+ "" = a.
Proof. induction a as [|x a IH]; [reflexivity|]. rewrite str_app_String, IH. reflexivity. Qed.

Lemma parse_Z_to_string (z : Z) (t : string) :
  word_at (head (String.list_ascii_of_string t)) = false ->
  parseInt_or0 (Z_to_string z +:+ t) = z.
Proof.
  intros Ht. unfold parseInt_or0, parseInt. rewrite lstr_app.
  destruct (Z.lt_ge_cases z 0) as [Hz|Hz].
  - rewrite Z_to_string_neg by exact Hz.
    pose proof (N_to_string_digits (Z.to_N (- z))) as [Hd Hne].
    pose proof (dec_value_N_to_string (Z.to_N (- z))) as Hv.
    cbn [String.list_ascii_of_string app].
    destruct (String.list_ascii_of_string (N_to_string (Z.to_N (- z)))) as [|d r] eqn:E; [done|].
    cbn [trim_start app]. replace (is_space "-") with false by reflexivity.
    replace (Ascii.eqb "-" "-") with true by reflexivity.
    cbn -[digits_prefix app]. rewrite parse_tail by assumption.
    rewrite Hv, Z2N.id by lia. lia.
  - rewrite Z_to_string_nonneg by exact Hz.
    pose proof (N_to_string_digits (Z.to_N z)) as [Hd Hne].
    pose proof (dec_value_N_to_string (Z.to_N z)) as Hv.
    destruct (String.list_ascii_of_string (N_to_string (Z.to_N z))) as [|d r] eqn:E; [done|].
    inversion Hd as [|? ? Hd1 Hr]; subst.
    cbn [trim_start app]. rewrite (is_digit_not_space d Hd1).
    destruct (Ascii.eqb_spec d "-") as [->|]; [discriminate Hd1|].
    destruct (Ascii.eqb_spec d "+") as [->|]; [discriminate Hd1|].
    cbn -[digits_prefix app]. rewrite parse_tail by assumption.
    rewrite Hv, Z2N.id by lia. lia.
Qed.

Lemma fireNum_n_last (rf : Z -> Z -> nat -> Z) (h k : nat) (s : NumSt) :
  fireNum_n rf h (S k) s = fireNum rf h (fireNum_n rf h k s).
Proof. revert s. induction k as [|k IH]; intros s; [reflexivity|]. simpl. rewrite <- IH. reflexivity. Qed.

Lemma find_anim_fresh (L : list Anim) (a : Anim) (h : nat) :
  Forall (fun b => an_id b < h)%nat L -> an_id a = h ->
  find (fun b => Nat.eqb (an_id b) h) (L ++ [a])%list = Some a.
Proof.
  intros HL Ha. induction L as [|b L IH]; simpl.
  - rewrite Ha, Nat.eqb_refl. reflexivity.
  - inversion HL as [|? ? Hb HL']; subst. replace (Nat.eqb (an_id b) (an_id a)) with false
      by (symmetry; apply Nat.eqb_neq; lia). exact (IH HL').
Qed.

Lemma find_anim_none (L : list Anim) (h : nat) :
  Forall (fun b => an_id b < h)%nat L -> find (fun b => Nat.eqb (an_id b) h) L = None.
Proof.
  intros HL. induction L as [|b L IH]; [reflexivity|]. inversion HL as [|? ? Hb HL']; subst.
  simpl. replace (Nat.eqb (an_id b) h) with false by (symmetry; apply Nat.eqb_neq; lia).
  exact (IH HL').
Qed.

Lemma set_step_fresh (L : list Anim) (a : Anim) (h k : nat) :
  Forall (fun b => an_id b < h)%nat L -> an_id a = h ->
  map (fun b => if Nat.eqb (an_id b) h then mkAnim (an_id b) (an_el b) (an_from b) (an_to b) k
                else b) (L ++ [a])%list
  = (L ++ [mkAnim h (an_el a) (an_from a) (an_to a) k])%list.
Proof.
  intros HL Ha. rewrite map_app. simpl. rewrite Ha, Nat.eqb_refl. f_equal.
  induction L as [|b L IH]; [reflexivity|]. inversion HL as [|? ? Hb HL']; subst. simpl.
  replace (Nat.eqb (an_id b) (an_id a)) with false by (symmetry; apply Nat.eqb_neq; lia).
  rewrite IH by exact HL'. reflexivity.
Qed.

Lemma filter_fresh (L : list Anim) (a : Anim) (h : nat) :
  Forall (fun b => an_id b < h)%nat L -> an_id a = h ->
  filter (fun b => an_id b <> h) (L ++ [a])%list = L.
Proof.
  intros HL Ha. rewrite filter_app, filter_cons_False by (intros C; apply C; exact Ha).
  rewrite app_nil_r. induction L as [|b L IH]; [reflexivity|].
  inversion HL as [|? ? Hb HL']; subst. rewrite filter_cons_True by lia. by rewrite IH.
Qed.

Lemma is_Some_find_modify (e : nat) (f : Element -> Element) (d : list Element) :
  (forall x, eid (f x) = eid x) -> is_Some (find_el e d) -> is_Some (find_el e (modify_el e f d)).
Proof.
  intros Hf [x Hx]. rewrite find_el_modify by exact Hf. rewrite Hx. eexists. reflexivity.
Qed.

Lemma animateNumber_running (rf : Z -> Z -> nat -> Z) (s : NumSt) (e : nat) (t : Z) (k : nat) :
  is_Some (find_el e (n_dom s)) -> Forall (fun a => an_id a < n_next s)%nat (n_live s) ->
  (k < anim_steps)%nat ->
  exists d, fireNum_n rf (n_next s) k (animateNumber e t s)
            = mkNumSt d (n_live s ++ [mkAnim (n_next s) e (parseInt_or0 (el_text e (n_dom s))) t k])%list
                (S (n_next s))
    /\ is_Some (find_el e d).
Proof.
  intros He HL. induction k as [|k IH]; intros Hk.
  - exists (n_dom s). split; [reflexivity | exact He].
  - destruct IH as (d & E & Hd); [lia|]. rewrite fireNum_n_last, E.
    unfold fireNum. cbn [n_live]. rewrite find_anim_fresh by (assumption || reflexivity).
    unfold animTick. cbn [an_step an_el an_id an_from an_to].
    replace (Nat.leb anim_steps (S k)) with false by (symmetry; apply Nat.leb_gt; exact Hk).
    eexists. split.
    + unfold num_setText, num_set_step. cbn [n_dom n_live n_next].
      rewrite set_step_fresh by (assumption || reflexivity). reflexivity.
    + unfold num_setText, num_set_step. cbn [n_dom].
      apply is_Some_find_modify; [reflexivity | exact Hd].
Qed.

(** X5: [animateNumber(element, target)] on a present element keeps its
    interval live for 20 firings; after the 20th the element shows
    [String(target)], the interval is cleared (firing it again changes
    nothing), the other animations are as before, and, for a target
    within 2^53 in magnitude, a later [animateNumber] on the element
    starts from [target].  Handles already in use are below the next
    one. *)
Theorem animateNumber_completes (rf : Z -> Z -> nat -> Z) (s : NumSt) (e : nat) (t : Z) :
  is_Some (find_el e (n_dom s)) -> Forall (fun a => an_id a < n_next s)%nat (n_live s) ->
  let h := n_next s in
  let s' := fireNum_n rf h anim_steps (animateNumber e t s) in
  (forall k, (k < anim_steps)%nat ->
     exists a, In a (n_live (fireNum_n rf h k (animateNumber e t s))) /\ an_id a = h)
  /\ el_text e (n_dom s') = Z_to_string t
  /\ n_live s' = n_live s
  /\ fireNum rf h s' = s'
  /\ (Z.abs t <= 2 ^ 53 -> parseInt_or0 (el_text e (n_dom s')) = t).
Proof.
  intros He HL h s'.
  destruct (animateNumber_running rf s e t 19 He HL ltac:(cbv; lia)) as (d & E & Hd).
  assert (s' = num_setText e (Z_to_string t)
                 (num_clearInterval h
                    (num_setText e (Z_to_string (rf (parseInt_or0 (el_text e (n_dom s))) t 20%nat))
                       (num_set_step h 20%nat (mkNumSt d (n_live s ++ [mkAnim h e (parseInt_or0 (el_text e (n_dom s))) t 19])%list (S h)))))) as Es'.
  { subst s'. change anim_steps with (S 19). rewrite fireNum_n_last. fold h in E. rewrite E.
    unfold fireNum. cbn [n_live]. rewrite find_anim_fresh by (assumption || reflexivity).
    reflexivity. }
  assert (el_text e (n_dom s') = Z_to_string t) as Ht.
  { rewrite Es'. unfold el_text. unfold num_setText at 1. cbn [n_dom].
    rewrite find_el_modify by reflexivity.
    unfold num_clearInterval, num_setText, num_set_step. cbn [n_dom].
    rewrite find_el_modify by reflexivity. destruct Hd as [x Hx]. rewrite Hx. reflexivity. }
  split; [|split; [|split; [|split]]].
  - intros k Hk. destruct (animateNumber_running rf s e t k He HL Hk) as (d' & E' & _).
    fold h in E'. rewrite E'. exists (mkAnim h e (parseInt_or0 (el_text e (n_dom s))) t k).
    split; [|reflexivity]. simpl. apply in_or_app. right. left. reflexivity.
  - rewrite Es'. unfold el_text. unfold num_setText at 1. cbn [n_dom].
    rewrite find_el_modify by reflexivity.
    unfold num_clearInterval, num_setText, num_set_step. cbn [n_dom].
    rewrite find_el_modify by reflexivity. destruct Hd as [x Hx]. rewrite Hx. reflexivity.
  - rewrite Es'. unfold num_setText, num_clearInterval, num_set_step. cbn [n_live].
    rewrite set_step_fresh by (assumption || reflexivity).
    apply filter_fresh; [assumption | reflexivity].
  - assert (n_live s' = n_live s) as Hl.
    { rewrite Es'. unfold num_setText, num_clearInterval, num_set_step. cbn [n_live].
      rewrite set_step_fresh by (assumption || reflexivity).
      apply filter_fresh; [assumption | reflexivity]. }
    unfold fireNum. rewrite Hl, find_anim_none by exact HL. reflexivity.
  - intros _. rewrite Ht, <- (str_app_nil_r (Z_to_string t)).
    apply parse_Z_to_string. reflexivity.
Qed.

(** X4: [parseInt(String(z) + t) || 0] reads back the safe integer [z]
    when [t] does not start with a word character (so in particular
    after [textContent = z]). *)
Theorem parseInt_or0_toString (z : Z) (t : string) :
  Z.abs z <= 2 ^ 53 -> word_at (head (String.list_ascii_of_string t)) = false ->
  parseInt_or0 (Z_to_string z +:+ t) = z.
Proof. intros _. apply parse_Z_to_string. Qed.

(* ------------------------------------------------------------------ *)
(** ** Page operations, the copy button and the hash demos *)

Lemma set_dom_dom (s : St) : set_dom (dom s) s = s.
Proof. destruct s; reflexivity. Qed.

Lemma set_dom_set_dom (d d' : list Element) (s : St) : set_dom d (set_dom d' s) = set_dom d s.
Proof. reflexivity. Qed.

Lemma forEach_modify (f : Element -> Element) (els : list Element) (s : St) :
  (forall e, eid (f e) = eid e) -> (forall e, f (f e) = f e) ->
  forEach (fun i s => set_dom (modify_el i f (dom s)) s) els s
  = set_dom (map (fun e => if existsb (Nat.eqb (eid e)) (map eid els) then f e else e) (dom s)) s.
Proof.
  intros Hid Hidem. unfold forEach. revert s. induction els as [|a els IH]; intros s; simpl.
  - rewrite map_id.
    symmetry. apply set_dom_dom.
  - rewrite IH, set_dom_set_dom. cbn [dom set_dom]. unfold modify_el. rewrite map_map. f_equal.
    apply map_ext. intros e.
    destruct (Nat.eqb (eid e) (eid a)) eqn:E; simpl; rewrite ?Hid, ?E; simpl;
      destruct (existsb _ _); simpl; rewrite ?Hidem; reflexivity.
Qed.

Lemma cl_add_idem (c : string) (cs : list string) : cl_add c (cl_add c cs) = cl_add c cs.
Proof.
  unfold cl_add at 1. rewrite cl_contains_add. rewrite bool_decide_eq_true_2 by reflexivity.
  reflexivity.
Qed.

Lemma forEach_classAdd (c : string) (els : list Element) (s : St) :
  forEach (classAdd c) els s = set_dom (map (added_to c els) (dom s)) s.
Proof.
  apply (forEach_modify (fun e => el_set_classes (cl_add c (classes e)) e)); [reflexivity|].
  intros e. unfold el_set_classes. simpl. rewrite cl_add_idem. reflexivity.
Qed.

Lemma forEach_classRemove (c : string) (els : list Element) (s : St) :
  forEach (classRemove c) els s = set_dom (map (removed_from c els) (dom s)) s.
Proof.
  apply (forEach_modify (fun e => el_set_classes (cl_remove c (classes e)) e)); [reflexivity|].
  intros e. unfold el_set_classes. simpl. rewrite cl_remove_idem. reflexivity.
Qed.

Lemma in_filter_eid (P : Element -> Prop) `{forall e, Decision (P e)} (l : list Element) (x : Element) :
  NoDup (map eid l) -> In x l ->
  existsb (Nat.eqb (eid x)) (map eid (filter P l)) = bool_decide (P x).
Proof.
  intros Hnd Hx. case_bool_decide as Px.
  - apply existsb_exists. exists (eid x). rewrite Nat.eqb_refl. split; [|reflexivity].
    apply in_map. apply list_elem_of_In, list_elem_of_filter. split; [exact Px|].
    by apply list_elem_of_In.
  - apply not_true_is_false. intros Hex.
    apply existsb_exists in Hex as (z & Hz & Ez). apply Nat.eqb_eq in Ez.
    apply in_map_iff in Hz as (q & <- & Hq).
    apply list_elem_of_In, list_elem_of_filter in Hq as [Pq Hq].
    apply list_elem_of_In in Hq.
    rewrite (eid_inj l x q Hnd Hx Hq Ez) in Px. contradiction.
Qed.

Lemma revealAll_map (slide : nat) (s : St) :
  NoDup (map eid (dom s)) ->
  revealAllAnswers (Some slide) s
  = set_dom (map (fun e => if in_slide_answer slide e
                           then el_set_classes (cl_add "revealed" (classes e)) e else e) (dom s)) s.
Proof.
  intros Hnd. unfold revealAllAnswers. rewrite forEach_classAdd. f_equal.
  apply map_ext_in. intros e He. unfold added_to, querySelectorAllIn.
  rewrite (in_filter_eid _ (dom s) e Hnd He). unfold in_slide_answer.
  destruct (existsb _ (ancestors e)), (cl_contains _ _); reflexivity.
Qed.

(** X6: with distinct element identities, [revealAllAnswers()] adds
    "revealed" to exactly the ".reveal-answer" elements under the current
    slide, changes nothing else, and a second call changes nothing. *)
Theorem revealAllAnswers_spec (slide : nat) (s : St) :
  NoDup (map eid (dom s)) ->
  revealAllAnswers (Some slide) s
  = set_dom (map (fun e => if in_slide_answer slide e
                           then el_set_classes (cl_add "revealed" (classes e)) e else e) (dom s)) s
  /\ revealAllAnswers (Some slide) (revealAllAnswers (Some slide) s)
     = revealAllAnswers (Some slide) s.
Proof.
  intros Hnd. rewrite (revealAll_map slide s Hnd). split; [reflexivity|].
  rewrite revealAll_map.
  - rewrite set_dom_set_dom. cbn [dom set_dom]. f_equal. rewrite map_map. apply map_ext.
    intros e. destruct (in_slide_answer slide e) eqn:I; [|rewrite I; reflexivity].
    replace (in_slide_answer slide (el_set_classes (cl_add "revealed" (classes e)) e)) with true.
    + unfold el_set_classes. simpl. rewrite cl_add_idem. reflexivity.
    + unfold in_slide_answer in *. simpl. rewrite cl_contains_add.
      rewrite bool_decide_eq_false_2 by discriminate. by rewrite I.
  - cbn [dom set_dom]. rewrite map_map.
    erewrite map_ext; [exact Hnd|]. intros e. destruct (in_slide_answer _ _); reflexivity.
Qed.

Lemma cl_remove_add (c : string) (cs : list string) : cl_remove c (cl_add c cs) = cl_remove c cs.
Proof.
  unfold cl_add. destruct (cl_contains c cs); [reflexivity|].
  unfold cl_remove. rewrite filter_app, filter_cons_False by (intros C; apply C; reflexivity).
  rewrite filter_nil, app_nil_r. reflexivity.
Qed.

Lemma modify_el_twice (i : nat) (f g : Element -> Element) (d : list Element) :
  (forall e, eid (f e) = eid e) ->
  modify_el i g (modify_el i f d) = modify_el i (fun e => g (f e)) d.
Proof.
  intros Hf. unfold modify_el. rewrite map_map. apply map_ext. intros e.
  destruct (Nat.eqb (eid e) i) eqn:E; rewrite ?Hf, ?E; reflexivity.
Qed.

Lemma getElementById_modify (id : string) (i : nat) (f : Element -> Element) (d : list Element) (e : Element) :
  (forall x, el_id (f x) = el_id x) -> (forall x, eid (f x) = eid x) ->
  getElementById id d = Some e ->
  exists e', getElementById id (modify_el i f d) = Some e' /\ eid e' = eid e.
Proof.
  intros Hid Heid Hg. unfold modify_el. rewrite getElementById_map.
  - rewrite Hg. simpl. destruct (Nat.eqb (eid e) i); eexists; split; [reflexivity| |reflexivity|reflexivity].
    apply Heid.
  - intros x. destruct (Nat.eqb _ _); [apply Hid | reflexivity].
Qed.

Lemma modify_el_ext (i : nat) (f g : Element -> Element) (d : list Element) :
  (forall e, f e = g e) -> modify_el i f d = modify_el i g d.
Proof. intros H. unfold modify_el. apply map_ext. intros e. by rewrite H. Qed.

(** X7: [revealAnswer] twice is [revealAnswer] once, [hideAnswer] after
    [revealAnswer] is [hideAnswer] alone, and [hideAnswer] twice is
    [hideAnswer] once. *)
Theorem reveal_hide_laws (elementId : string) (s : St) :
  revealAnswer elementId (revealAnswer elementId s) = revealAnswer elementId s
  /\ hideAnswer elementId (revealAnswer elementId s) = hideAnswer elementId s
  /\ hideAnswer elementId (hideAnswer elementId s) = hideAnswer elementId s.
Proof.
  unfold revealAnswer, hideAnswer.
  destruct (getElementById elementId (dom s)) as [e|] eqn:G; [|repeat split; rewrite ?G; reflexivity].
  unfold classAdd, classRemove.
  repeat split; cbn [dom set_dom];
    match goal with
    | |- context [getElementById elementId (modify_el (eid e) ?f (dom s))] =>
        destruct (getElementById_modify elementId (eid e) f (dom s) e ltac:(reflexivity)
                    ltac:(reflexivity) G) as (e' & -> & ->)
    end;
    rewrite set_dom_set_dom, modify_el_twice by reflexivity; f_equal; apply modify_el_ext;
    intros x; unfold el_set_classes; simpl;
    rewrite ?cl_add_idem, ?cl_remove_add, ?cl_remove_idem; reflexivity.
Qed.

Lemma cl_remove_absent (c : string) (cs : list string) :
  cl_contains c cs = false -> cl_remove c cs = cs.
Proof.
  rewrite cl_contains_spec. intros H. apply bool_decide_eq_false_1 in H.
  unfold cl_remove. induction cs as [|x cs IH]; [reflexivity|].
  rewrite elem_of_cons in H. rewrite filter_cons_True by (intros ->; tauto).
  rewrite IH by tauto. reflexivity.
Qed.

Lemma el_set_classes_same (e : Element) : el_set_classes (classes e) e = e.
Proof. destruct e; reflexivity. Qed.

Lemma clearBugHighlights_map (codeBlockId : string) (s : St) (b : Element) :
  NoDup (map eid (dom s)) -> getElementById codeBlockId (dom s) = Some b ->
  clearBugHighlights codeBlockId s = set_dom (map (clear_in_block (eid b)) (dom s)) s.
Proof.
  intros Hnd Hb. unfold clearBugHighlights. rewrite Hb, forEach_classRemove. f_equal.
  apply map_ext_in. intros e He. unfold removed_from, querySelectorAllIn, clear_in_block.
  rewrite (in_filter_eid _ (dom s) e Hnd He).
  destruct (existsb _ (ancestors e)); [|reflexivity].
  destruct (cl_contains _ _) eqn:C; [reflexivity|].
  rewrite cl_remove_absent by exact C. symmetry. apply el_set_classes_same.
Qed.

Lemma In_lookup_filter (P : Element -> Prop) `{forall e, Decision (P e)} (d : list Element) k x :
  filter P d !! k = Some x -> In x d /\ P x.
Proof.
  intros Hk. apply list_elem_of_lookup_2 in Hk. apply list_elem_of_filter in Hk as [Px Hx].
  split; [by apply list_elem_of_In | exact Px].
Qed.

Lemma NoDup_modify (i : nat) (f : Element -> Element) (d : list Element) :
  (forall e, eid (f e) = eid e) -> map eid (modify_el i f d) = map eid d.
Proof.
  intros Hf. unfold modify_el. rewrite map_map. apply map_ext. intros e.
  destruct (Nat.eqb _ _); [apply Hf | reflexivity].
Qed.

(** X8: with distinct element identities, [clearBugHighlights(b)] after
    [highlightBug(b, n)] gives the same state as [clearBugHighlights(b)]
    alone, for every line number [n]. *)
Theorem highlight_then_clear (codeBlockId : string) (lineNumber : Z) (s : St) :
  NoDup (map eid (dom s)) ->
  clearBugHighlights codeBlockId (highlightBug codeBlockId lineNumber s)
  = clearBugHighlights codeBlockId s.
Proof.
  intros Hnd. unfold highlightBug.
  destruct (getElementById codeBlockId (dom s)) as [b|] eqn:Hb; [|reflexivity].
  destruct (lineNumber - 1 <? 0); [reflexivity|].
  destruct (_ !! _) as [l|] eqn:Hl; [|reflexivity].
  apply In_lookup_filter in Hl as [Hl [Hanc _]].
  unfold classAdd.
  set (f := fun e => el_set_classes (cl_add "bug-highlight" (classes e)) e).
  destruct (getElementById_modify codeBlockId (eid l) f (dom s) b ltac:(reflexivity)
              ltac:(reflexivity) Hb) as (b' & Hb' & Eb).
  rewrite (clearBugHighlights_map codeBlockId s b Hnd Hb).
  rewrite (clearBugHighlights_map codeBlockId _ b').
  2: { cbn [dom set_dom]. rewrite NoDup_modify by reflexivity. exact Hnd. }
  2: exact Hb'.
  rewrite set_dom_set_dom, Eb. cbn [dom set_dom]. f_equal. unfold modify_el. rewrite map_map.
  apply map_ext_in. intros e He. destruct (Nat.eqb (eid e) (eid l)) eqn:E; [|reflexivity].
  apply Nat.eqb_eq in E. rewrite (eid_inj (dom s) e l Hnd He Hl E).
  unfold clear_in_block, f. cbn [ancestors]. rewrite Hanc. unfold el_set_classes. simpl.
  rewrite cl_remove_add, Hanc. reflexivity.
Qed.

Lemma selected_in (cs : list string) (d : list Element) (y : Element) :
  In y d -> forallb (fun c => cl_contains c (classes y)) cs = true ->
  existsb (Nat.eqb (eid y)) (map eid (querySelectorAll cs d)) = true.
Proof.
  intros Hy Hf. apply existsb_exists. exists (eid y). rewrite Nat.eqb_refl. split; [|reflexivity].
  apply in_map. apply list_elem_of_In, list_elem_of_filter. split; [exact Hf|].
  by apply list_elem_of_In.
Qed.

Lemma clearCurrentItems_none (s : St) (x : Element) :
  In x (dom (clearCurrentItems s)) ->
  cl_contains "progress-item" (classes x) && cl_contains "current" (classes x) = false.
Proof.
  rewrite clearCurrentItems_dom. intros Hx. apply in_map_iff in Hx as (y & <- & Hy).
  destruct (removed_from_classes "current" "current" (querySelectorAll ["progress-item"; "current"] (dom s)) y)
    as (_ & _ & Hc).
  rewrite Hc. rewrite bool_decide_eq_true_2 by reflexivity.
  destruct (existsb _ _) eqn:Ex; [apply andb_false_r|].
  replace (removed_from "current" (querySelectorAll ["progress-item"; "current"] (dom s)) y) with y
    by (unfold removed_from; rewrite Ex; reflexivity).
  destruct (cl_contains "progress-item" (classes y) && cl_contains "current" (classes y)) eqn:B;
    [|reflexivity].
  rewrite (selected_in _ _ y Hy) in Ex; [discriminate|]. simpl. rewrite andb_true_r. exact B.
Qed.

(** X9: [setCurrent(i)] right after [markComplete(i)] only clears
    "current" from the progress items: no progress item is left current,
    and item [i] is completed and not current. *)
Theorem markComplete_then_setCurrent (itemId : string) (s : St) (e : Element) :
  getElementById itemId (dom s) = Some e ->
  let s' := setCurrent itemId (markComplete itemId s) in
  s' = clearCurrentItems (markComplete itemId s)
  /\ (forall x, In x (dom s') ->
        cl_contains "progress-item" (classes x) && cl_contains "current" (classes x) = false)
  /\ exists e', getElementById itemId (dom s') = Some e' /\ eid e' = eid e
       /\ cl_contains "completed" (classes e') = true /\ cl_contains "current" (classes e') = false.
Proof.
  intros He s'.
  set (g := fun x : Element => el_set_classes (cl_add "completed" (classes
              (el_set_classes (cl_remove "current" (classes x)) x)))
              (el_set_classes (cl_remove "current" (classes x)) x)).
  assert (markComplete itemId s = set_dom (modify_el (eid e) g (dom s)) s) as Hm.
  { unfold markComplete. rewrite He. unfold classAdd, classRemove.
    rewrite set_dom_set_dom. cbn [dom set_dom]. rewrite modify_el_twice by reflexivity.
    reflexivity. }
  assert (getElementById itemId (dom (markComplete itemId s)) = Some (g e)) as Hg.
  { rewrite Hm. cbn [dom set_dom]. unfold modify_el. rewrite getElementById_map.
    - rewrite He. simpl. rewrite Nat.eqb_refl. reflexivity.
    - intros x. destruct (Nat.eqb _ _); reflexivity. }
  assert (cl_contains "completed" (classes (g e)) = true /\ cl_contains "current" (classes (g e)) = false)
    as [Gc Gu].
  { unfold g, el_set_classes. simpl. rewrite !cl_contains_add, !cl_contains_remove.
    rewrite bool_decide_eq_true_2 by reflexivity. split; [reflexivity|].
    rewrite bool_decide_eq_false_2 by discriminate. rewrite bool_decide_eq_true_2 by reflexivity.
    reflexivity. }
  set (Sel := querySelectorAll ["progress-item"; "current"] (dom (markComplete itemId s))).
  destruct (removed_from_classes "current" "completed" Sel (g e)) as (Ei & _ & Rc).
  destruct (removed_from_classes "current" "current" Sel (g e)) as (_ & _ & Ru).
  rewrite bool_decide_eq_false_2 in Rc by discriminate.
  rewrite bool_decide_eq_true_2 in Ru by reflexivity.
  assert (s' = clearCurrentItems (markComplete itemId s)) as Hs.
  { subst s'. unfold setCurrent. rewrite getElementById_clearCurrentItems, Hg. cbn [option_map].
    fold Sel. rewrite Rc, Gc. destruct (existsb _ _); reflexivity. }
  split; [exact Hs|]. split.
  - intros x Hx. rewrite Hs in Hx. exact (clearCurrentItems_none _ x Hx).
  - exists (removed_from "current" Sel (g e)). rewrite Hs, getElementById_clearCurrentItems, Hg.
    split; [reflexivity|]. rewrite Ei, Rc, Ru, Gc, Gu. unfold g. simpl.
    repeat split; destruct (existsb _ _); reflexivity.
Qed.

Lemma fire_n_idle (h k : nat) (s : St) : live s = [] -> fire_n h k s = s.
Proof.
  intros Hl. revert s Hl. induction k as [|k IH]; intros s Hl; [reflexivity|].
  cbn [fire_n]. rewrite fire_idle by exact Hl. exact (IH s Hl).
Qed.

(** X10: in every reachable state [resetTimer(d, n)] leaves no timer
    running: [timerInterval] is [null], no interval is live, so no
    firing changes the state; the seconds are set to [n] when [d]
    exists. *)
Theorem resetTimer_freezes (ok : Op -> Prop) (s : St) (displayId : string) (seconds : Z) :
  reach ok s ->
  let s' := resetTimer displayId seconds s in
  timerInterval s' = None /\ live s' = []
  /\ (forall d, getElementById displayId (dom s) = Some d -> timerSeconds s' = seconds)
  /\ (forall h k, fire_n h k s' = s').
Proof.
  intros Hr s'. destruct (stopTimer_inv s (reach_timer_inv ok s Hr)) as [Ht Hl].
  assert (timerInterval s' = None /\ live s' = []) as [Ht' Hl'].
  { subst s'. unfold resetTimer. destruct (getElementById _ _); [|auto]. simpl. auto. }
  split; [exact Ht'|]. split; [exact Hl'|]. split.
  - intros d Hd. subst s'. unfold resetTimer. rewrite stopTimer_dom, Hd. reflexivity.
  - intros h k. apply fire_n_idle. exact Hl'.
Qed.

Lemma filter_map_pres (P : Element -> Prop) `{forall e, Decision (P e)} (g : Element -> Element)
    (d : list Element) :
  (forall e, P (g e) <-> P e) -> filter P (map g d) = map g (filter P d).
Proof.
  intros Hg. induction d as [|a d IH]; [reflexivity|]. cbn [map]. rewrite !filter_cons.
  destruct (Hg a) as [H1 H2].
  destruct (decide (P (g a))) as [Pa|Pa], (decide (P a)) as [Pa'|Pa'];
    [| exfalso; exact (Pa' (H1 Pa)) | exfalso; exact (Pa (H2 Pa')) |];
    cbn [map]; rewrite IH; reflexivity.
Qed.

Lemma find_el_map (g : Element -> Element) (i : nat) (d : list Element) :
  (forall e, eid (g e) = eid e) -> find_el i (map g d) = option_map g (find_el i d).
Proof.
  intros Hg. unfold find_el. induction d as [|a d IH]; [reflexivity|]. simpl.
  rewrite Hg. destruct (Nat.eqb (eid a) i); [reflexivity | exact IH].
Qed.

Lemma find_el_in (d : list Element) (x : Element) :
  NoDup (map eid d) -> In x d -> find_el (eid x) d = Some x.
Proof.
  unfold find_el. induction d as [|a d IH]; simpl; [tauto|]. intros Hnd Hx.
  inversion Hnd as [|? ? Hnin Hnd']; subst.
  destruct Hx as [<- | Hx]; [rewrite Nat.eqb_refl; reflexivity|].
  destruct (Nat.eqb_spec (eid a) (eid x)) as [E|E]; [|exact (IH Hnd' Hx)].
  exfalso. apply Hnin. rewrite E. apply list_elem_of_In. by apply in_map.
Qed.

Lemma NoDup_map_filter (P : Element -> Prop) `{forall e, Decision (P e)} (d : list Element) :
  NoDup (map eid d) -> NoDup (map eid (filter P d)).
Proof.
  induction d as [|a d IH]; intros Hnd; [constructor|]. inversion Hnd as [|? ? Hnin Hnd']; subst.
  rewrite filter_cons. destruct (decide (P a)); [|exact (IH Hnd')]. simpl. constructor; [|exact (IH Hnd')].
  intros Hin. apply Hnin. apply list_elem_of_In in Hin. apply in_map_iff in Hin as (y & Ey & Hy).
  apply list_elem_of_In in Hy. apply list_elem_of_filter in Hy as [_ Hy].
  rewrite <- Ey. apply list_elem_of_In. apply in_map. by apply list_elem_of_In.
Qed.

Lemma existsb_take_nodup (l : list nat) (j k a : nat) :
  NoDup l -> l !! j = Some a -> existsb (Nat.eqb a) (take k l) = Nat.ltb j k.
Proof.
  revert j k. induction l as [|b l IH]; intros j k Hnd Hj; [discriminate|].
  inversion Hnd as [|? ? Hnin Hnd']; subst.
  destruct k as [|k]; [destruct j; reflexivity|]. cbn [take existsb].
  destruct j as [|j].
  - injection Hj as ->. rewrite Nat.eqb_refl. reflexivity.
  - simpl in Hj. rewrite (IH j k Hnd' Hj).
    replace (Nat.eqb a b) with false; [reflexivity|].
    symmetry. apply Nat.eqb_neq. intros ->. apply Hnin. by apply list_elem_of_lookup_2 in Hj.
Qed.

Lemma existsb_app_eid (i : nat) (l : list Element) (x : Element) :
  existsb (Nat.eqb i) (map eid (l ++ [x])) = existsb (Nat.eqb i) (map eid l) || Nat.eqb i (eid x).
Proof. rewrite map_app, existsb_app. simpl. rewrite orb_false_r. reflexivity. Qed.

Lemma merkle_steps_added (c : Element) (T : list Element) (d : list Element) :
  merkle_steps c (map (added_to "visible" T) d) = map (added_to "visible" T) (merkle_steps c d).
Proof.
  unfold merkle_steps, querySelectorAllIn. apply filter_map_pres. intros e.
  unfold added_to. destruct (existsb (Nat.eqb (eid e)) (map eid T)); [|reflexivity]. simpl.
  rewrite cl_contains_add, bool_decide_eq_false_2 by discriminate. reflexivity.
Qed.

Lemma added_to_eid (c : string) (T : list Element) (e : Element) :
  eid (added_to c T e) = eid e /\ el_id (added_to c T e) = el_id e.
Proof. unfold added_to. destruct (existsb _ _); auto. Qed.

Lemma added_to_snoc (c : string) (T : list Element) (x e : Element) :
  added_to c (T ++ [x]) e
  = if Nat.eqb (eid e) (eid x) then el_set_classes (cl_add c (classes e)) e else added_to c T e.
Proof.
  unfold added_to. rewrite existsb_app_eid.
  destruct (Nat.eqb (eid e) (eid x)), (existsb _ _); reflexivity.
Qed.

Lemma merkle_iter (containerId : string) (s : St) (c : Element) (k : nat) :
  getElementById containerId (dom s) = Some c -> merkleAnimationStep s = 0%nat ->
  Nat.iter k (animateMerkleTree containerId) s
  = set_dom (map (added_to "visible" (take k (merkle_steps c (dom s)))) (dom s))
      (set_merkleAnimationStep (Nat.min k (length (merkle_steps c (dom s)))) s).
Proof.
  intros Hc H0. induction k as [|k IH].
  - cbn [take Nat.iter Nat.min]. unfold added_to. cbn [map existsb]. rewrite map_id.
    destruct s; cbn in *; subst; reflexivity.
  - rewrite Nat.iter_succ, IH. clear IH.
    set (S0 := merkle_steps c (dom s)). set (g := added_to "visible" (take k S0)).
    unfold animateMerkleTree. cbn [dom set_dom set_merkleAnimationStep merkleAnimationStep].
    rewrite getElementById_map by (intros; apply added_to_eid). rewrite Hc. cbn [option_map].
    replace (eid (g c)) with (eid c) by (symmetry; apply added_to_eid).
    fold (merkle_steps c (map g (dom s))).
    replace (merkle_steps c (map g (dom s))) with (map g S0)
      by (unfold g, S0; symmetry; apply merkle_steps_added).
    rewrite lookup_map_el.
    destruct (Nat.lt_ge_cases k (length S0)) as [Hk|Hk].
    + replace (Nat.min k (length S0)) with k by lia.
      replace (Nat.min (S k) (length S0)) with (S k) by lia.
      destruct (S0 !! k) as [st|] eqn:Hst; [|apply lookup_ge_None in Hst; lia].
      cbn [option_map]. rewrite (take_S_r S0 k st Hst).
      unfold classAdd, set_dom, set_merkleAnimationStep. cbn. f_equal.
      unfold modify_el. rewrite map_map. apply map_ext. intros e.
      replace (eid (g st)) with (eid st) by (symmetry; apply added_to_eid).
      replace (eid (g e)) with (eid e) by (symmetry; apply added_to_eid).
      unfold g. rewrite added_to_snoc.
      destruct (Nat.eqb (eid e) (eid st)); [|reflexivity].
      unfold added_to; destruct (existsb _ _); simpl; unfold el_set_classes; simpl;
        rewrite ?cl_add_idem; reflexivity.
    + replace (Nat.min k (length S0)) with (length S0) by lia.
      replace (Nat.min (S k) (length S0)) with (length S0) by lia.
      replace (S0 !! length S0) with (@None Element) by (symmetry; apply lookup_ge_None; lia).
      cbn [option_map]. unfold g. rewrite !take_ge by lia. reflexivity.
Qed.

(** X11: with distinct element identities, [resetMerkleAnimation(c)]
    followed by [k] calls of [animateMerkleTree(c)] sets the step counter
    to [min k (#steps)] and leaves exactly the first [k] merkle steps of
    [c] visible. *)
Theorem merkle_reset_then_steps (containerId : string) (s : St) (c : Element) (k : nat) :
  NoDup (map eid (dom s)) -> getElementById containerId (dom s) = Some c ->
  let steps := merkle_steps c (dom s) in
  let s' := Nat.iter k (animateMerkleTree containerId) (resetMerkleAnimation containerId s) in
  merkleAnimationStep s' = Nat.min k (length steps)
  /\ (forall j x, steps !! j = Some x ->
        option_map (fun e => cl_contains "visible" (classes e)) (find_el (eid x) (dom s'))
        = Some (Nat.ltb j k)).
Proof.
  intros Hnd Hc steps s'.
  set (r := removed_from "visible" steps).
  assert (resetMerkleAnimation containerId s = set_dom (map r (dom s)) (set_merkleAnimationStep 0 s))
    as Hr.
  { unfold resetMerkleAnimation. rewrite Hc, forEach_classRemove. reflexivity. }
  assert (forall e, eid (r e) = eid e /\ el_id (r e) = el_id e /\ ancestors (r e) = ancestors e
                    /\ cl_contains "merkle-step" (classes (r e)) = cl_contains "merkle-step" (classes e))
    as Hre.
  { intros e. unfold r, removed_from. destruct (existsb _ _); [|auto]. simpl.
    rewrite cl_contains_remove, bool_decide_eq_false_2 by discriminate. auto. }
  assert (getElementById containerId (map r (dom s)) = Some (r c)) as Hc0.
  { rewrite getElementById_map by (intros; apply Hre). rewrite Hc. reflexivity. }
  assert (merkle_steps (r c) (map r (dom s)) = map r steps) as Hsteps.
  { unfold merkle_steps, querySelectorAllIn. rewrite (proj1 (Hre c)).
    apply filter_map_pres. intros e. destruct (Hre e) as (_ & _ & -> & ->). reflexivity. }
  pose proof (merkle_iter containerId (set_dom (map r (dom s)) (set_merkleAnimationStep 0 s))
                (r c) k Hc0 eq_refl) as It.
  cbn [dom set_dom set_merkleAnimationStep] in It. rewrite Hsteps in It.
  fold r in Hr. unfold s'. rewrite Hr, It. clear It. rewrite length_map. split; [reflexivity|].
  intros j x Hx. cbn [dom set_dom set_merkleAnimationStep].
  assert (In x (dom s)) as Hxin.
  { unfold steps, merkle_steps, querySelectorAllIn in Hx. apply In_lookup_filter in Hx. tauto. }
  rewrite find_el_map by (intros; apply added_to_eid).
  rewrite find_el_map by (intros; apply Hre).
  rewrite (find_el_in (dom s) x Hnd Hxin). cbn [option_map]. f_equal.
  assert (NoDup (map eid steps)) as Hnds by (apply NoDup_map_filter; exact Hnd).
  assert (existsb (Nat.eqb (eid (r x))) (map eid (take k (map r steps))) = Nat.ltb j k) as Ex.
  { rewrite (proj1 (Hre x)), firstn_map, map_map.
    rewrite (map_ext (fun y => eid (r y)) eid) by (intros; apply Hre).
    rewrite <- firstn_map. apply existsb_take_nodup; [exact Hnds|].
    rewrite lookup_map_el, Hx. reflexivity. }
  assert (classes (r x) = cl_remove "visible" (classes x)) as Hrx.
  { unfold r, removed_from. replace (existsb (Nat.eqb (eid x)) (map eid steps)) with true; [reflexivity|].
    symmetry. apply existsb_exists. exists (eid x). rewrite Nat.eqb_refl. split; [|reflexivity].
    apply in_map. apply list_elem_of_In. by apply list_elem_of_lookup_2 in Hx. }
  unfold added_to. rewrite Ex. destruct (Nat.ltb j k); simpl; rewrite Hrx.
  - rewrite cl_contains_add, bool_decide_eq_true_2 by reflexivity. reflexivity.
  - rewrite cl_contains_remove, bool_decide_eq_true_2 by reflexivity. reflexivity.
Qed.

Lemma fold_toggle (ls : list nat) (P : nat -> bool) (s : St) :
  NoDup ls ->
  fold_left (fun acc l => if P l then classToggle "revealed" l acc else acc) ls s
  = set_dom (map (toggled (fun i => existsb (Nat.eqb i) ls && P i)) (dom s)) s.
Proof.
  revert s. induction ls as [|l ls IH]; intros s Hnd; simpl.
  - unfold toggled. simpl. rewrite map_id. symmetry. apply set_dom_dom.
  - inversion Hnd as [|? ? Hnin Hnd']; subst. rewrite IH by exact Hnd'.
    destruct (P l) eqn:Pl.
    + unfold classToggle. rewrite set_dom_set_dom. cbn [dom set_dom]. f_equal.
      unfold modify_el. rewrite map_map. apply map_ext. intros e. unfold toggled.
      destruct (Nat.eqb (eid e) l) eqn:E; simpl.
      * apply Nat.eqb_eq in E. rewrite E, Pl. simpl.
        replace (existsb (Nat.eqb l) ls) with false; [reflexivity|].
        symmetry. apply not_true_is_false. intros Hx. apply existsb_exists in Hx as (y & Hy & Ey).
        apply Nat.eqb_eq in Ey. subst. apply Hnin. by apply list_elem_of_In.
      * reflexivity.
    + f_equal. apply map_ext. intros e. unfold toggled. simpl.
      destruct (Nat.eqb_spec (eid e) l) as [->|Ne]; [rewrite Pl, !andb_false_r; reflexivity|].
      reflexivity.
Qed.

Lemma cl_contains_toggle (c c' : string) (cs : list string) :
  cl_contains c' (cl_toggle c cs)
  = if bool_decide (c' = c) then negb (cl_contains c cs) else cl_contains c' cs.
Proof.
  unfold cl_toggle. destruct (cl_contains c cs) eqn:E;
    rewrite ?cl_contains_remove, ?cl_contains_add; case_bool_decide; subst; rewrite ?E; reflexivity.
Qed.

Lemma find_el_eid (j : nat) (d : list Element) (e : Element) : find_el j d = Some e -> eid e = j.
Proof.
  unfold find_el. intros H. apply find_some in H as [_ H]. by apply Nat.eqb_eq.
Qed.

Lemma clickReveal_map (ls : list nat) (target : nat) (s : St) (t : Element) :
  NoDup ls -> find_el target (dom s) = Some t ->
  clickReveal ls target s = set_dom (map (toggled (on_path ls target t)) (dom s)) s.
Proof.
  intros Hnd Ht. unfold clickReveal. rewrite Ht. apply fold_toggle. exact Hnd.
Qed.

Lemma toggled_eid (P : nat -> bool) (e : Element) :
  eid (toggled P e) = eid e /\ ancestors (toggled P e) = ancestors e.
Proof. unfold toggled. destruct (P _); auto. Qed.

(** X12: after [initRevealAnswers()] on a page with distinct element
    identities, a click only changes elements that were
    ".reveal-answer" at initialisation; it flips "revealed" on each such
    element that is the target or one of its ancestors, leaves every
    other class alone, and a second click on the same target restores
    every class membership. *)
Theorem reveal_click (s0 s : St) (target : nat) :
  NoDup (map eid (dom s0)) ->
  let ls := initRevealAnswers s0 in
  let s1 := clickReveal ls target s in
  (forall j, ~ In j ls -> find_el j (dom s1) = find_el j (dom s))
  /\ (forall j t e, In j ls -> find_el target (dom s) = Some t ->
        j = target \/ In j (ancestors t) -> find_el j (dom s) = Some e ->
        option_map (fun x => cl_contains "revealed" (classes x)) (find_el j (dom s1))
        = Some (negb (cl_contains "revealed" (classes e))))
  /\ (forall j c, c <> "revealed" ->
        option_map (fun x => cl_contains c (classes x)) (find_el j (dom s1))
        = option_map (fun x => cl_contains c (classes x)) (find_el j (dom s)))
  /\ (forall j c,
        option_map (fun x => cl_contains c (classes x)) (find_el j (dom (clickReveal ls target s1)))
        = option_map (fun x => cl_contains c (classes x)) (find_el j (dom s))).
Proof.
  intros Hnd0 ls s1.
  assert (NoDup ls) as Hnd.
  { unfold ls, initRevealAnswers, querySelectorAll. apply NoDup_map_filter. exact Hnd0. }
  destruct (find_el target (dom s)) as [t|] eqn:Ht.
  2: { assert (s1 = s) as -> by (unfold s1, clickReveal; rewrite Ht; reflexivity).
       repeat split; try reflexivity; [discriminate|].
       intros j c. unfold clickReveal. rewrite Ht. reflexivity. }
  set (Q := on_path ls target t).
  assert (dom s1 = map (toggled Q) (dom s)) as Hs1
    by (unfold s1; rewrite (clickReveal_map ls target s t Hnd Ht); reflexivity).
  assert (forall j, find_el j (dom s1) = option_map (toggled Q) (find_el j (dom s))) as F1.
  { intros j. rewrite Hs1. apply find_el_map. intros; apply toggled_eid. }
  split; [|split; [|split]].
  - intros j Hj. rewrite F1. destruct (find_el j (dom s)) as [e|] eqn:He; [|reflexivity].
    cbn [option_map]. f_equal. unfold toggled, Q, on_path. rewrite (find_el_eid j _ e He).
    replace (existsb (Nat.eqb j) ls) with false; [reflexivity|].
    symmetry. apply not_true_is_false. intros Hx. apply existsb_exists in Hx as (y & Hy & Ey).
    apply Nat.eqb_eq in Ey. subst. contradiction.
  - intros j t' e Hj Ht' Hpath He. injection Ht' as <-.
    rewrite F1, He. cbn [option_map]. f_equal. unfold toggled.
    replace (Q (eid e)) with true.
    + simpl. rewrite cl_contains_toggle, bool_decide_eq_true_2 by reflexivity. reflexivity.
    + symmetry. unfold Q, on_path. rewrite (find_el_eid j _ e He). apply andb_true_intro. split.
      * apply existsb_exists. exists j. rewrite Nat.eqb_refl. auto.
      * destruct Hpath as [-> | Hin]; [rewrite Nat.eqb_refl; reflexivity|].
        apply orb_true_intro. right. apply existsb_exists. exists j. rewrite Nat.eqb_refl. auto.
  - intros j c Hc. rewrite F1. destruct (find_el j (dom s)) as [e|]; [|reflexivity].
    cbn [option_map]. f_equal. unfold toggled. destruct (Q _); [|reflexivity]. simpl.
    rewrite cl_contains_toggle, bool_decide_eq_false_2 by exact Hc. reflexivity.
  - intros j c.
    assert (find_el target (dom s1) = Some (toggled Q t)) as Ht1 by (rewrite F1, Ht; reflexivity).
    rewrite (clickReveal_map ls target s1 (toggled Q t) Hnd Ht1). cbn [dom set_dom].
    rewrite find_el_map by (intros; apply toggled_eid). rewrite F1.
    destruct (find_el j (dom s)) as [e|]; [|reflexivity]. cbn [option_map]. f_equal.
    unfold on_path. rewrite (proj2 (toggled_eid Q t)). fold (on_path ls target t). fold Q.
    unfold toggled at 1. rewrite (proj1 (toggled_eid Q e)). unfold toggled.
    destruct (Q (eid e)); [|reflexivity]. simpl.
    rewrite !cl_contains_toggle. case_bool_decide; [subst; apply negb_involutive | reflexivity].
Qed.

(** X13: from an idle button, a successful copy shows "Copied!" on the
    success background and puts the code on the clipboard; the timeout
    then restores the original text and clears the background. *)
Theorem copyCode_success_restores (c : CopySt) (t : string) :
  pending c = [] -> restores c = [] ->
  let c1 := run_copy [CClick (Some t); CSettle true ""] c in
  let c2 := run_copy [CTimeout] c1 in
  btn_text c1 = "Copied!" /\ btn_bg c1 = "#10b981" /\ clipboard c1 = t
  /\ btn_text c2 = btn_text c /\ btn_bg c2 = "" /\ clipboard c2 = t
  /\ pending c2 = [] /\ restores c2 = [] /\ copyLog c2 = copyLog c.
Proof.
  intros Hp Hr. destruct c as [b bg cb p r lg]; simpl in Hp, Hr; subst. repeat split.
Qed.

(** X14: two clicks whose copies both succeed before the first timeout
    leave the button reading "Copied!" after both timeouts: the second
    success captured "Copied!" as the text to restore. *)
Theorem copyCode_double_success_sticks (c : CopySt) (t1 t2 e1 e2 : string) :
  pending c = [] -> restores c = [] ->
  let c' := run_copy [CClick (Some t1); CClick (Some t2); CSettle true e1; CSettle true e2;
                      CTimeout; CTimeout] c in
  btn_text c' = "Copied!" /\ btn_bg c' = "" /\ clipboard c' = t2
  /\ pending c' = [] /\ restores c' = [].
Proof.
  intros Hp Hr. destruct c as [b bg cb p r lg]; simpl in Hp, Hr; subst. repeat split.
Qed.

(** X15: a click without a code element does nothing; a failed copy
    shows "Failed", keeps the background and the clipboard, schedules no
    restore and logs the error, and a later successful copy restores the
    button to "Failed". *)
Theorem copyCode_failure (c : CopySt) (t t' err : string) :
  pending c = [] -> restores c = [] ->
  run_copy [CClick None] c = c
  /\ (let c1 := run_copy [CClick (Some t); CSettle false err] c in
      btn_text c1 = "Failed" /\ btn_bg c1 = btn_bg c /\ clipboard c1 = clipboard c
      /\ restores c1 = [] /\ copyLog c1 = (copyLog c ++ ["Failed to copy:" +:+ err])%list
      /\ btn_text (run_copy [CClick (Some t'); CSettle true ""; CTimeout] c1) = "Failed").
Proof.
  intros Hp Hr. destruct c as [b bg cb p r lg]; simpl in Hp, Hr; subst. repeat split.
Qed.

Lemma keccak_normal (ethers : option Ethers) (input : string) :
  exists h, snd (computeKeccakHash ethers input) = Normal h
    /\ (ethers = None -> h = "Error: ethers.js not loaded").
Proof.
  destruct ethers as [e|]; simpl; [|eauto].
  destruct (toUtf8Bytes e input); [destruct (keccak256 e v)|]; simpl; eexists; split;
    (reflexivity || discriminate).
Qed.

(** X16: [updateHash()] on an empty input shows the placeholder at opacity
    0.5 without hashing or logging; on a non-empty input it shows the
    result of [computeKeccakHash] at opacity 1 with its log lines, the
    missing-library message when [ethers] is absent. *)
Theorem updateHash_spec (ethers : option Ethers) (value : string) (o : Out) :
  (value = "" -> updateHash ethers value o = (mkOut hashPlaceholder (out_color o) "0.5", []))
  /\ (value <> "" ->
      exists h, snd (computeKeccakHash ethers value) = Normal h
        /\ updateHash ethers value o = (mkOut h (out_color o) "1", fst (computeKeccakHash ethers value))
        /\ (ethers = None -> h = "Error: ethers.js not loaded")).
Proof.
  split.
  - intros ->. reflexivity.
  - intros Hv. destruct (keccak_normal ethers value) as (h & Hh & Hn). exists h.
    split; [exact Hh|]. split; [|exact Hn]. unfold updateHash.
    replace (Nat.eqb (String.length value) 0) with false
      by (destruct value; [contradiction | reflexivity]).
    destruct (computeKeccakHash ethers value) as [l r]. simpl in Hh. subst. reflexivity.
Qed.

(** X17: [updateHashes()] writes both hash results; both outputs get the
    "same" colour #4a9ea4 when the two result strings are equal, and red
    and green otherwise; without [ethers] the results are equal, so the
    outputs are coloured "same" whatever the inputs. *)
Theorem updateHashes_spec (ethers : option Ethers) (v1 v2 : string) (o1 o2 : Out) :
  exists h1 h2,
    snd (computeKeccakHash ethers v1) = Normal h1 /\ snd (computeKeccakHash ethers v2) = Normal h2
    /\ updateHashes ethers v1 v2 o1 o2
       = (mkOut h1 (if String.eqb h1 h2 then "#4a9ea4" else "#ef4444") (out_opacity o1),
          mkOut h2 (if String.eqb h1 h2 then "#4a9ea4" else "#10b981") (out_opacity o2),
          fst (computeKeccakHash ethers v1) ++ fst (computeKeccakHash ethers v2))%list
    /\ (ethers = None -> h1 = h2).
Proof.
  destruct (keccak_normal ethers v1) as (h1 & H1 & N1).
  destruct (keccak_normal ethers v2) as (h2 & H2 & N2).
  exists h1, h2. split; [exact H1|]. split; [exact H2|]. split.
  - unfold updateHashes. destruct (computeKeccakHash ethers v1) as [l1 r1].
    destruct (computeKeccakHash ethers v2) as [l2 r2]. simpl in H1, H2. subst.
    unfold highlightHashDifferences. cbn [out_text out_opacity].
    destruct (String.eqb h1 h2); reflexivity.
  - intros Hn. rewrite (N1 Hn), (N2 Hn). reflexivity.
Qed.

(** Witnesses of the extra properties. *)


Lemma formatNumber_strip_commas_witness :
  Z.abs (-1234567) < 10 ^ 21
  /\ String.string_of_list_ascii
       (filter (fun c => c <> ","%char) (String.list_ascii_of_string (formatNumber (-1234567))))
     = Z_to_string (-1234567).
Proof. split; [lia|]. apply formatNumber_strip_commas. lia. Defined.

Lemma replaceThousands_fraction_witness :
  "1234" <> "" /\ "5678" <> "" /\ all_digits "1234" = true /\ all_digits "5678" = true
  /\ replaceThousands ("1234" +:+ "." +:+ "5678")
     = replaceThousands "1234" +:+ "." +:+ replaceThousands "5678".
Proof.
  split; [discriminate|]. split; [discriminate|]. split; [reflexivity|]. split; [reflexivity|].
  apply replaceThousands_fraction; (discriminate || reflexivity).
Defined.

Lemma parseInt_or0_toString_witness :
  Z.abs (-42) <= 2 ^ 53 /\ word_at (head (String.list_ascii_of_string " points")) = false
  /\ parseInt_or0 (Z_to_string (-42) +:+ " points") = -42.
Proof.
  split; [lia|]. split; [reflexivity|]. apply parseInt_or0_toString; [lia | reflexivity].
Defined.

Lemma animateNumber_completes_witness :
  let rf := fun (a b : Z) (k : nat) => a + (b - a) * Z.of_nat k / 20 in
  let s := mkNumSt page [] 1%nat in
  is_Some (find_el 2%nat (n_dom s)) /\ Forall (fun a => an_id a < n_next s)%nat (n_live s)
  /\ el_text 2%nat (n_dom (fireNum_n rf 1%nat anim_steps (animateNumber 2%nat 15 s)))
     = Z_to_string 15.
Proof.
  intros rf s.
  assert (He : is_Some (find_el 2%nat (n_dom s))) by (eexists; reflexivity).
  assert (HL : Forall (fun a => an_id a < n_next s)%nat (n_live s)) by constructor.
  split; [exact He|]. split; [exact HL|].
  exact (proj1 (proj2 (animateNumber_completes rf s 2%nat 15 He HL))).
Defined.

Lemma revealAllAnswers_spec_witness :
  let s := initSt [el0 10%nat None [] []; el0 11%nat None ["reveal-answer"] [10%nat];
                   el0 12%nat None ["reveal-answer"] []] in
  NoDup (map eid (dom s))
  /\ revealAllAnswers (Some 10%nat) (revealAllAnswers (Some 10%nat) s)
     = revealAllAnswers (Some 10%nat) s.
Proof.
  intros s.
  assert (Hnd : NoDup (map eid (dom s))) by (apply (bool_decide_unpack _); vm_compute; reflexivity).
  split; [exact Hnd|]. exact (proj2 (revealAllAnswers_spec 10%nat s Hnd)).
Defined.

Lemma highlight_then_clear_witness :
  let s := initSt [el0 1%nat (Some "code") [] []; el0 2%nat None ["code-line"] [1%nat];
                   el0 3%nat None ["code-line"; "bug-highlight"] [1%nat]] in
  NoDup (map eid (dom s))
  /\ clearBugHighlights "code" (highlightBug "code" 1 s) = clearBugHighlights "code" s.
Proof.
  intros s.
  assert (Hnd : NoDup (map eid (dom s))) by (apply (bool_decide_unpack _); vm_compute; reflexivity).
  split; [exact Hnd|]. exact (highlight_then_clear "code" 1 s Hnd).
Defined.

Lemma markComplete_then_setCurrent_witness :
  getElementById "step2" (dom (initSt page))
    = Some (el0 5%nat (Some "step2") ["progress-item"; "current"] [])
  /\ setCurrent "step2" (markComplete "step2" (initSt page))
     = clearCurrentItems (markComplete "step2" (initSt page)).
Proof.
  assert (He : getElementById "step2" (dom (initSt page))
               = Some (el0 5%nat (Some "step2") ["progress-item"; "current"] [])) by reflexivity.
  split; [exact He|]. exact (proj1 (markComplete_then_setCurrent "step2" (initSt page) _ He)).
Defined.

Lemma resetTimer_freezes_witness :
  let s := run_op (OCall (IStartTimer "timer" 60 false)) (initSt page) in
  reach (fun _ => True) s /\ live (resetTimer "timer" 30 s) = [].
Proof.
  intros s.
  assert (Hr : reach (fun _ => True) s) by (apply reach_step; [exact I | apply reach_init]).
  split; [exact Hr|]. exact (proj1 (proj2 (resetTimer_freezes _ s "timer" 30 Hr))).
Defined.

Lemma merkle_reset_then_steps_witness :
  NoDup (map eid (dom (initSt page)))
  /\ getElementById "merkle" (dom (initSt page)) = Some (el0 6%nat (Some "merkle") [] [])
  /\ merkleAnimationStep (Nat.iter 5 (animateMerkleTree "merkle")
                            (resetMerkleAnimation "merkle" (initSt page)))
     = Nat.min 5 (length (merkle_steps (el0 6%nat (Some "merkle") [] []) (dom (initSt page)))).
Proof.
  assert (Hnd : NoDup (map eid (dom (initSt page))))
    by (apply (bool_decide_unpack _); vm_compute; reflexivity).
  assert (Hc : getElementById "merkle" (dom (initSt page)) = Some (el0 6%nat (Some "merkle") [] []))
    by reflexivity.
  split; [exact Hnd|]. split; [exact Hc|].
  exact (proj1 (merkle_reset_then_steps "merkle" (initSt page) _ 5 Hnd Hc)).
Defined.

Lemma reveal_click_witness :
  let s0 := initSt [el0 1%nat None ["reveal-answer"] []; el0 2%nat None [] [1%nat]] in
  let ls := initRevealAnswers s0 in
  NoDup (map eid (dom s0))
  /\ option_map (fun x => cl_contains "revealed" (classes x))
       (find_el 1%nat (dom (clickReveal ls 2%nat (clickReveal ls 2%nat s0))))
     = option_map (fun x => cl_contains "revealed" (classes x)) (find_el 1%nat (dom s0)).
Proof.
  intros s0 ls.
  assert (Hnd : NoDup (map eid (dom s0))) by (apply (bool_decide_unpack _); vm_compute; reflexivity).
  split; [exact Hnd|].
  exact (proj2 (proj2 (proj2 (reveal_click s0 s0 2%nat Hnd))) 1%nat "revealed").
Defined.

Lemma copyCode_success_restores_witness :
  let c := mkCopy "Copy" "" "" [] [] [] in
  pending c = [] /\ restores c = []
  /\ btn_text (run_copy [CTimeout] (run_copy [CClick (Some "x"); CSettle true ""] c)) = "Copy".
Proof.
  intros c. split; [reflexivity|]. split; [reflexivity|].
  exact (proj1 (proj2 (proj2 (proj2 (copyCode_success_restores c "x" eq_refl eq_refl))))).
Defined.

Lemma copyCode_double_success_sticks_witness :
  let c := mkCopy "Copy" "" "" [] [] [] in
  pending c = [] /\ restores c = []
  /\ btn_text (run_copy [CClick (Some "a"); CClick (Some "b"); CSettle true ""; CSettle true "";
                         CTimeout; CTimeout] c) = "Copied!".
Proof.
  intros c. split; [reflexivity|]. split; [reflexivity|].
  exact (proj1 (copyCode_double_success_sticks c "a" "b" "" "" eq_refl eq_refl)).
Defined.

Lemma copyCode_failure_witness :
  let c := mkCopy "Copy" "" "" [] [] [] in
  pending c = [] /\ restores c = []
  /\ btn_text (run_copy [CClick (Some "a"); CSettle false "denied"] c) = "Failed".
Proof.
  intros c. split; [reflexivity|]. split; [reflexivity|].
  exact (proj1 (proj2 (copyCode_failure c "a" "b" "denied" eq_refl eq_refl))).
Defined.
